(** * News RAG backend: ingestion script and chat server

    A shallow embedding of the two programs of the repository:
    the ingestion script (chunking, batched embedding, upsert with
    deterministic ids) and the chat server (retrieval, prompt assembly,
    generation with retries and a fallback model, session history).

    Strings are sequences of code units ([string]); JavaScript numbers
    that are used as sizes, cursors and counters are integers ([Z] or
    [nat]); remote services are oracles of an environment record and every
    call to one is logged in a trace. *)

From Stdlib Require Import ZArith Lia List String Ascii Bool.
From stdpp Require Import base option list gmap strings pretty.
Import ListNotations.

Local Open Scope string_scope.
Local Open Scope Z_scope.
Local Open Scope list_scope.

(** ** JavaScript string primitives *)

Module Js.

(** [s.slice(start, stop)]: negative offsets count from the end, both
    offsets are clamped to the string, an inverted range is empty. *)
Definition slice (s : string) (start stop : Z) : string :=
  let len := Z.of_nat (String.length s) in
  let from := if start <? 0 then Z.max (len + start) 0 else Z.min start len in
  let to := if stop <? 0 then Z.max (len + stop) 0 else Z.min stop len in
  substring (Z.to_nat from) (Z.to_nat (Z.max (to - from) 0)) s.

(** Code units that [String.prototype.trim] strips (those below 256). *)
Definition is_white_space (c : ascii) : bool :=
  let n := nat_of_ascii c in
  ((9 <=? n) && (n <=? 13) || (n =? 32) || (n =? 160))%nat.

Fixpoint all_white_space (s : string) : bool :=
  match s with
  | EmptyString => true
  | String c s' => is_white_space c && all_white_space s'
  end.

(** The line feed of a template literal that spans several lines. *)
Definition nl : string := String (ascii_of_nat 10) EmptyString.

(** [xs.map((x, i) => f(x, i))], the index starting at [i0]. *)
Fixpoint mapi {A B} (f : A -> nat -> B) (i0 : nat) (xs : list A) : list B :=
  match xs with
  | [] => []
  | x :: rest => f x i0 :: mapi f (S i0) rest
  end.

End Js.

(** ** Ingestion: the chunker *)

Module Chunker.

(** The [while] loop of [chunkText]. [i] is the cursor and [chunks] the
    array built so far; [fuel] bounds the number of iterations and [None]
    means it ran out before the loop condition became false. *)
Fixpoint chunk_loop (fuel : nat) (text : string) (chunkSize overlap maxChunks : Z)
    (i : Z) (chunks : list string) : option (list string) :=
  let maxLen := Z.of_nat (String.length text) in
  if (i <? maxLen) && (Z.of_nat (length chunks) <? maxChunks) then
    match fuel with
    | O => None
    | S fuel' =>
        let end_ := Z.min (i + chunkSize) maxLen in
        let chunks' := chunks ++ [Js.slice text i end_] in
        let i1 := end_ - overlap in
        let i2 := if i1 <? 0 then 0 else i1 in
        chunk_loop fuel' text chunkSize overlap maxChunks i2 chunks'
    end
  else Some chunks.

(** [chunkText(text, chunkSize, overlap, maxChunks)]. Every iteration
    pushes one chunk and the loop stops at [maxChunks] chunks, so
    [maxChunks] iterations always suffice (see [chunkText_total]). *)
Definition chunkText (text : string) (chunkSize overlap maxChunks : Z)
    : option (list string) :=
  chunk_loop (Z.to_nat maxChunks) text chunkSize overlap maxChunks 0 [].

(** The defaults of the signature, as [main] passes them. *)
Definition chunkText_default (text : string) : option (list string) :=
  chunkText text 800 80 80.

(** The same loop, recording the span [(i, end)] of every chunk instead
    of its text. [count] is [chunks.length] on entry. *)
Fixpoint spans_from (fuel : nat) (maxLen chunkSize overlap maxChunks : Z)
    (i : Z) (count : nat) : option (list (Z * Z)) :=
  if (i <? maxLen) && (Z.of_nat count <? maxChunks) then
    match fuel with
    | O => None
    | S fuel' =>
        let end_ := Z.min (i + chunkSize) maxLen in
        let i1 := end_ - overlap in
        let i2 := if i1 <? 0 then 0 else i1 in
        cons (i, end_) <$> spans_from fuel' maxLen chunkSize overlap maxChunks i2 (S count)
    end
  else Some [].

Definition chunkSpans (text : string) (chunkSize overlap maxChunks : Z)
    : option (list (Z * Z)) :=
  spans_from (Z.to_nat maxChunks) (Z.of_nat (String.length text))
    chunkSize overlap maxChunks 0 0.

Definition slice_span (text : string) (sp : Z * Z) : string :=
  Js.slice text (fst sp) (snd sp).

(** End offset of the last span, [0] when there is none. *)
Definition last_end (spans : list (Z * Z)) : Z :=
  snd (List.last spans (0, 0)).

(** The cursor after a chunk that started at [i]. *)
Definition next_cursor (maxLen chunkSize overlap i : Z) : Z :=
  let end_ := Z.min (i + chunkSize) maxLen in
  if end_ - overlap <? 0 then 0 else end_ - overlap.





Definition covers (from to : Z) (spans : list (Z * Z)) : Prop :=
  forall p, from <= p < to -> exists s e, In (s, e) spans /\ s <= p < e.

End Chunker.

(** ** The runtime both programs share: values, errors, services *)

Module Runtime.

(** A JavaScript number that the programs only pass along (an embedding
    coordinate, a similarity score): no arithmetic is done on it here. *)
Definition number := Z.

(** A parsed JSON value; [undefined] is [None] of [option json]. *)
#[local] Unset Elimination Schemes.
Inductive json :=
| JNull
| JBool (b : bool)
| JNum (n : number)
| JStr (s : string)
| JArr (items : list json)
| JObj (fields : list (string * json)).
#[local] Set Elimination Schemes.

(** A thrown value as the [catch] clauses inspect it: [err.status],
    [err.response.status], [err.message]. [throw undefined] is [None]. *)
Record js_error := mk_error {
  err_status : option Z;
  err_response_status : option Z;
  err_message : string;
}.

Definition type_error (msg : string) : js_error :=
  {| err_status := None; err_response_status := None; err_message := msg |}.

Inductive outcome (A : Type) : Type :=
| Returned (a : A)
| Thrown (e : option js_error).
Arguments Returned {A} a.
Arguments Thrown {A} e.

(** [o.k] for a key [k] that only a JSON object can carry ([data],
    [embedding]): a later duplicate key wins, as in [JSON.parse]. *)
Definition obj_get (k : string) (fields : list (string * json)) : option json :=
  fold_left (fun acc kv => if String.eqb (fst kv) k then Some (snd kv) else acc)
    fields None.

Definition get_member (v : option json) (k : string) : outcome (option json) :=
  match v with
  | None | Some JNull =>
      Thrown (Some (type_error "Cannot read properties of undefined"))
  | Some (JObj fields) => Returned (obj_get k fields)
  | Some _ => Returned None
  end.

(** Session history, as [pushHistory] builds its entries. *)
Record history_entry := {
  role : string;
  content : string;
  ts : Z;
}.

(** What the vector store keeps and returns. *)
Record payload := {
  payload_text : option string;
  payload_url : option string;
  payload_title : option string;
}.

Record hit := {
  hit_score : number;
  hit_payload : option payload;
}.

Record point := {
  point_id : string;
  point_vector : option json;
  point_url : string;
  point_title : string;
  point_text : option string;
}.

(** Answers of the remote services. *)
Record http_response := {
  http_status : Z;
  http_data : option json;
}.

Inductive http_result :=
| HttpResponse (r : http_response)
| HttpFailure (e : js_error).

(** What one pass through the [try] block of [generateWithRetries] gives:
    the text of the response, or the value that was caught. *)
Inductive gen_result :=
| GenText (t : string)
| GenError (e : js_error).

Inductive search_result :=
| SearchHits (hits : list hit)
| SearchError (e : js_error).

(** Every call that leaves the process, in the order it is made. *)
Inductive event :=
| EvRedisGet (key : string)
| EvRedisSet (key : string) (value : list history_entry)
| EvEmbed (texts : list string)
| EvSearch (vector : option json) (limit : Z)
| EvUpsert (points : list point)
| EvGenerate (model prompt : string) (r : gen_result)
| EvSleep (ms : Z)
| EvLog (e : option js_error).

(** The world outside the process: the calls made so far, the session
    store, the vector collection. *)
Record world := {
  trace : list event;
  sessions : gmap string (list history_entry);
  collection : gmap string point;
}.

Definition time (w : world) : nat := length (trace w).

Definition log_event (ev : event) (w : world) : world :=
  {| trace := trace w ++ [ev]; sessions := sessions w; collection := collection w |}.

Definition set_session (key : string) (h : list history_entry) (w : world) : world :=
  {| trace := trace w; sessions := <[key := h]> (sessions w); collection := collection w |}.

Definition put_points (pts : list point) (w : world) : world :=
  {| trace := trace w; sessions := sessions w;
     collection := fold_left (fun c p => <[point_id p := p]> c) pts (collection w) |}.

(** The environment: configuration read from [process.env]; what each
    service answers to a call made when [t] calls have been logged; and
    two library functions the code relies on, the hexadecimal MD5 digest of
    node's [crypto] and [Number.prototype.toFixed(3)]. *)
Record Env := {
  GEMINI_MODEL : string;
  GEMINI_FALLBACK_MODEL : string;
  jina_post : nat -> list string -> http_result;
  qdrant_search : nat -> option json -> Z -> search_result;
  qdrant_upsert : nat -> list point -> option js_error;
  generateContent : nat -> string -> string -> gen_result;
  redis_fault : nat -> option js_error;
  date_now : nat -> Z;
  md5_hex : string -> string;
  toFixed3 : number -> string;
}.

(** Asynchronous code as a state-and-exception monad over the world. *)
Definition M (A : Type) : Type := world -> world * outcome A.

#[export] Instance M_ret : MRet M := fun A a w => (w, Returned a).

#[export] Instance M_bind : MBind M := fun A B f m w =>
  match m w with
  | (w', Returned a) => f a w'
  | (w', Thrown e) => (w', Thrown e)
  end.

Definition throw {A} (e : option js_error) : M A := fun w => (w, Thrown e).

Definition try_catch {A} (body : M A) (handler : option js_error -> M A) : M A :=
  fun w =>
    match body w with
    | (w', Returned a) => (w', Returned a)
    | (w', Thrown e) => handler e w'
    end.

Definition lift_outcome {A} (o : outcome A) : M A := fun w => (w, o).

Definition emit (ev : event) : M unit := fun w => (log_event ev w, Returned tt).

Definition get_time : M nat := fun w => (w, Returned (time w)).

(** [xs.map(f)] where [f] may throw: the first failure aborts the map. *)
Fixpoint map_outcome {A B} (f : A -> outcome B) (xs : list A) : outcome (list B) :=
  match xs with
  | [] => Returned []
  | x :: rest =>
      match f x with
      | Thrown e => Thrown e
      | Returned y =>
          match map_outcome f rest with
          | Thrown e => Thrown e
          | Returned ys => Returned (y :: ys)
          end
      end
  end.

(** [await axios.post(...)], a library call: it rejects when no response
    arrives and when the status is not 2xx (the default [validateStatus],
    which [fetchAndExtract] overrides for its own call), the error
    carrying [response.status]. *)
Definition axios_result (r : http_result) : outcome http_response :=
  match r with
  | HttpFailure e => Thrown (Some e)
  | HttpResponse resp =>
      if (200 <=? http_status resp) && (http_status resp <? 300)
      then Returned resp
      else Thrown (Some {| err_status := None;
                           err_response_status := Some (http_status resp);
                           err_message := "Request failed" |})
  end.

(** [resp.data.data.map(d => d.embedding)]. *)
Definition embeddings_of_response (resp : http_response) : outcome (list (option json)) :=
  match get_member (http_data resp) "data" with
  | Thrown e => Thrown e
  | Returned (Some (JArr items)) =>
      map_outcome (fun d => get_member (Some d) "embedding") items
  | Returned None =>
      Thrown (Some (type_error "Cannot read properties of undefined"))
  | Returned (Some JNull) =>
      Thrown (Some (type_error "Cannot read properties of null"))
  | Returned (Some _) => Thrown (Some (type_error "map is not a function"))
  end.

Definition embedding_result (r : http_result) : outcome (list (option json)) :=
  match axios_result r with
  | Thrown e => Thrown e
  | Returned resp => embeddings_of_response resp
  end.

End Runtime.

(** ** Ingestion: embedding in batches and upsert *)

Module Ingest.
Import Runtime.

(** [truncateText(str, maxChars)]. *)
Definition truncateText (str : string) (maxChars : Z) : string :=
  if String.eqb str "" then ""
  else if Z.of_nat (String.length str) >? maxChars then Js.slice str 0 maxChars
  else str.

(** [chunks.slice(i, i + BATCH)] on an array, [0 <= i]. *)
Definition array_slice {A} (xs : list A) (i n : nat) : list A :=
  firstn n (skipn i xs).

(** The string hashed into a point id: [meta.url + '#' + (i + j)]. *)
Definition id_source (url : string) (index : nat) : string :=
  url +:+ "#" +:+ pretty index.

Section WithEnv.
Variable env : Env.

(** [embedBatch(texts)]: one POST, then the response is unpacked. *)
Definition embedBatch (texts : list string) : M (list (option json)) :=
  t ← get_time;
  emit (EvEmbed texts);;
  lift_outcome (embedding_result (jina_post env t texts)).

Definition point_id_of (url : string) (index : nat) : string :=
  md5_hex env (id_source url index).

(** The points of one batch: [vectors.map((vec, j) => ...)]. *)
Definition batch_points (url title : string) (i : nat) (slice : list string)
    (vectors : list (option json)) : list point :=
  Js.mapi (fun vec j =>
    {| point_id := point_id_of url (i + j);
       point_vector := vec;
       point_url := url;
       point_title := title;
       point_text := slice !! j |}) 0%nat vectors.

(** [qdrant.upsert(QDRANT_COLLECTION, { points })]: the store keeps one
    point per id, a later point replacing an earlier one. *)
Definition qdrant_upsert_call (pts : list point) : M unit :=
  t ← get_time;
  emit (EvUpsert pts);;
  match qdrant_upsert env t pts with
  | Some e => throw (Some e)
  | None => fun w => (put_points pts w, Returned tt)
  end.

Definition BATCH : nat := 32.

(** The [for] loop of [upsert]; [None] when [fuel] runs out. *)
Fixpoint upsert_loop (fuel : nat) (chunks : list string) (url title : string)
    (i : nat) (w : world) : option (world * outcome unit) :=
  if (i <? length chunks)%nat then
    match fuel with
    | O => None
    | S fuel' =>
        let slice := array_slice chunks i BATCH in
        match embedBatch slice w with
        | (w1, Thrown e) => Some (w1, Thrown e)
        | (w1, Returned vectors) =>
            let points := batch_points url title i slice vectors in
            match qdrant_upsert_call points w1 with
            | (w2, Thrown e) => Some (w2, Thrown e)
            | (w2, Returned _) => upsert_loop fuel' chunks url title (i + BATCH) w2
            end
        end
    end
  else Some (w, Returned tt).

(** [upsert(chunks, meta)]: [i] grows by 32 at every turn, so one unit of
    fuel per chunk is enough. *)
Definition upsert (chunks : list string) (url title : string) (w : world)
    : option (world * outcome unit) :=
  upsert_loop (length chunks) chunks url title 0 w.

(** The body of the loop of [main] over the documents: the text is
    capped, chunked with the fixed parameters and upserted; a failure is
    logged and the document given up. *)
Definition ingest_document (url title text : string) (w : world)
    : option (world * outcome unit) :=
  match Chunker.chunkText (truncateText text 60000) 800 80 80 with
  | None => None
  | Some chunks =>
      match upsert chunks url title w with
      | None => None
      | Some (w', Thrown e) => Some (log_event (EvLog e) w', Returned tt)
      | Some (w', Returned _) => Some (w', Returned tt)
      end
  end.

End WithEnv.


End Ingest.

(** ** The chat server *)

Module Server.
Import Runtime.

Record retrieval_result := {
  score : number;
  text : string;
  url : string;
  title : string;
}.

Record source := {
  source_id : string;
  source_title : string;
  source_url : string;
  source_score : number;
}.

Inductive response_body :=
| ErrorBody (error : string)
| ReplyBody (reply : string) (sources : list source) (sessionId : string).

Record response := {
  status : Z;
  body : response_body;
}.

(** [req.body.message] after [express.json()]: absent, a string, or some
    other JSON value, of which only the truthiness matters. *)
Inductive js_message :=
| MsgUndefined
| MsgString (s : string)
| MsgOther (truthy : bool).

(** A request as the handler sees it, [req.sessionId] set by
    [ensureSession]. *)
Record request := {
  req_sessionId : string;
  req_message : js_message;
}.

(** *** Generation with retries and a fallback model *)

Definition delays : list Z := [400; 800; 1600; 3200].

(** [delays[Math.min(attempt, delays.length - 1)]]. *)
Definition wait_for (attempt : nat) : Z :=
  nth (Nat.min attempt (length delays - 1)) delays 0.

(** [err?.status || err?.response?.status]. *)
Definition error_status (err : js_error) : option Z :=
  match err_status err with
  | Some s => if s =? 0 then err_response_status err else Some s
  | None => err_response_status err
  end.

Definition retriable (err : js_error) : bool :=
  match error_status err with
  | Some s => (s =? 429) || (s =? 500) || (s =? 502) || (s =? 503) || (s =? 504)
  | None => false
  end.

Definition session_key (sessionId : string) : string := "session:" +:+ sessionId.

Definition or_empty (o : option string) : string :=
  match o with Some s => s | None => "" end.

Definition result_of_hit (h : hit) : retrieval_result :=
  {| score := hit_score h;
     text := or_empty (hit_payload h ≫= payload_text);
     url := or_empty (hit_payload h ≫= payload_url);
     title := or_empty (hit_payload h ≫= payload_title) |}.

Definition instruction : string :=
  "You are a helpful assistant that answers questions using ONLY the provided news context."
  +:+ Js.nl +:+
  "Cite sources inline with [S1], [S2], etc., where the number corresponds to the source order. If you are unsure, say so briefly.".

Definition context_separator : string :=
  Js.nl +:+ Js.nl +:+ "---" +:+ Js.nl +:+ Js.nl.

Definition info_text : string :=
  "No indexed news found for retrieval. Please run `npm run ingest` (and ensure NEWS_RSS_LIST and JINA_API_KEY are set).".

Definition friendly_text : string :=
  "The news model is busy right now. Please try again in a few seconds.".

Definition bad_request : response :=
  {| status := 400; body := ErrorBody "message is required" |}.

Definition source_of (d : retrieval_result) (idx : nat) : source :=
  {| source_id := "S" +:+ pretty (idx + 1)%nat;
     source_title := title d;
     source_url := url d;
     source_score := score d |}.

Section WithEnv.
Variable env : Env.

(** The inner [for] loop of [generateWithRetries], [remaining] being
    [maxAttempts - attempt]. It ends with [inl text] when the function
    returns from inside the loop, and with [inr lastErr] when the loop is
    left, by [break] or because the attempts are used up. *)
Fixpoint attempt_loop (remaining attempt : nat) (modelName prompt : string)
    (lastErr : option js_error) : M (string + option js_error) :=
  match remaining with
  | O => mret (inr lastErr)
  | S remaining' =>
      t ← get_time;
      let r := generateContent env t modelName prompt in
      emit (EvGenerate modelName prompt r);;
      match r with
      | GenText text => mret (inl text)
      | GenError err =>
          if negb (retriable err) then mret (inr (Some err))
          else
            emit (EvSleep (wait_for attempt));;
            attempt_loop remaining' (S attempt) modelName prompt (Some err)
      end
  end.

(** The outer loop, over [modelsToTry]; then [throw lastErr]. *)
Fixpoint models_loop (modelsToTry : list string) (prompt : string)
    (maxAttempts : nat) (lastErr : option js_error) : M string :=
  match modelsToTry with
  | [] => throw lastErr
  | modelName :: rest =>
      r ← attempt_loop maxAttempts 0 modelName prompt lastErr;
      match r with
      | inl text => mret text
      | inr lastErr' => models_loop rest prompt maxAttempts lastErr'
      end
  end.

Definition generateWithRetries (primaryModel prompt : string) (maxAttempts : nat)
    : M string :=
  models_loop [primaryModel; GEMINI_FALLBACK_MODEL env] prompt maxAttempts None.

(** *** Session history. The store holds the JSON text of the array;
    the expiry set with ['EX'] is not modelled. *)
Definition getHistory (sessionId : string) : M (list history_entry) :=
  let key := session_key sessionId in
  t ← get_time;
  emit (EvRedisGet key);;
  match redis_fault env t with
  | Some e => throw (Some e)
  | None => fun w => (w, Returned (default [] (sessions w !! key)))
  end.

Definition pushHistory (sessionId role content : string) : M unit :=
  let key := session_key sessionId in
  history ← getHistory sessionId;
  t0 ← get_time;
  let history' :=
    history ++ [{| role := role; content := content; ts := date_now env t0 |}] in
  emit (EvRedisSet key history');;
  match redis_fault env t0 with
  | Some e => throw (Some e)
  | None => fun w => (set_session key history' w, Returned tt)
  end.

(** *** Retrieval *)
Definition embedTexts (texts : list string) : M (list (option json)) :=
  t ← get_time;
  emit (EvEmbed texts);;
  lift_outcome (embedding_result (jina_post env t texts)).

Definition retrieve (query : string) (topK : Z) : M (list retrieval_result) :=
  vectors ← embedTexts [query];
  let qvec := match vectors with v :: _ => v | [] => None end in
  t ← get_time;
  emit (EvSearch qvec topK);;
  match qdrant_search env t qvec topK with
  | SearchError e => throw (Some e)
  | SearchHits hits => mret (map result_of_hit hits)
  end.

(** *** The prompt *)
Definition source_block (c : retrieval_result) (i : nat) : string :=
  "Source " +:+ pretty (i + 1)%nat +:+ " (" +:+ toFixed3 env (score c) +:+ "): "
  +:+ title c +:+ Js.nl +:+ text c +:+ Js.nl +:+ "URL: " +:+ url c.

Definition context_text (contexts : list retrieval_result) : string :=
  String.concat context_separator (Js.mapi source_block 0%nat contexts).

Definition buildRagPrompt (query : string) (contexts : list retrieval_result) : string :=
  instruction +:+ Js.nl +:+ Js.nl +:+ "Question: " +:+ query +:+ Js.nl +:+ Js.nl
  +:+ "Context:" +:+ Js.nl +:+ context_text contexts +:+ Js.nl +:+ Js.nl
  +:+ "Answer:".

(** *** The handler of [POST /api/chat] *)
Definition reply_response (reply : string) (sources : list source) (sid : string)
    : response :=
  {| status := 200; body := ReplyBody reply sources sid |}.

(** The [try] block. *)
Definition chat_try (req : request) : M response :=
  let sid := req_sessionId req in
  match req_message req with
  | MsgUndefined => mret bad_request
  | MsgOther false => mret bad_request
  | MsgOther true => throw (Some (type_error "message.trim is not a function"))
  | MsgString message =>
      if Js.all_white_space message then mret bad_request
      else
        pushHistory sid "user" message;;
        docs ← retrieve message 5;
        match docs with
        | [] =>
            pushHistory sid "assistant" info_text;;
            mret (reply_response info_text [] sid)
        | _ :: _ =>
            let prompt := buildRagPrompt message docs in
            reply ← generateWithRetries (GEMINI_MODEL env) prompt 4;
            pushHistory sid "assistant" reply;;
            mret (reply_response reply (Js.mapi source_of 0%nat docs) sid)
        end
  end.

(** The [catch] clause: log, then the friendly reply with status 200. *)
Definition chat_catch (req : request) (err : option js_error) : M response :=
  emit (EvLog err);;
  mret (reply_response friendly_text [] (req_sessionId req)).

Definition chat (req : request) : M response :=
  try_catch (chat_try req) (chat_catch req).

End WithEnv.

(** The history of a session in a world. *)
Definition history_of (w : world) (sessionId : string) : list history_entry :=
  default [] (sessions w !! session_key sessionId).

Definition is_generate (ev : event) : bool :=
  match ev with EvGenerate _ _ _ => true | _ => false end.

End Server.

(** ** Vocabulary of the statements *)

Module Traces.
Import Runtime Ingest Server.

(** The last error of a run of failed attempts, [d] when there is none. *)
Definition last_error (d : option js_error) (errs : list js_error) : option js_error :=
  fold_left (fun _ e => Some e) errs d.

(** The calls of a run of failed, retried attempts on one model: attempt
    [a] fails with its error and is followed by the wait of index [a]. *)
Definition retried_attempts (modelName prompt : string) (a0 : nat)
    (errs : list js_error) : list event :=
  concat (Js.mapi (fun e a => [EvGenerate modelName prompt (GenError e);
                               EvSleep (wait_for a)]) a0 errs).

Definition is_success (ev : event) : Prop :=
  match ev with EvGenerate _ _ (GenText _) => True | _ => False end.

(** A call to the given model, or a wait between two calls. *)
Definition on_model (modelName : string) (ev : event) : Prop :=
  match ev with
  | EvGenerate m _ _ => m = modelName
  | EvSleep _ => True
  | _ => False
  end.

(** An event of the generation step: a call to a model or a wait. *)
Definition generation_event (ev : event) : Prop :=
  match ev with
  | EvGenerate _ _ _ | EvSleep _ => True
  | _ => False
  end.

Definition not_embed (ev : event) : Prop :=
  match ev with EvEmbed _ => False | _ => True end.

(** An event of the session store. *)
Definition store_event (ev : event) : Prop :=
  match ev with
  | EvRedisGet _ | EvRedisSet _ _ => True
  | _ => False
  end.

(** What one run of the inner loop adds to the trace, and how it ends:
    it never throws; it returns a text exactly when its last call
    succeeded, and no earlier call did. *)
Definition attempt_shape (m p : string) (seg : list event)
    (out : outcome (string + option js_error)) : Prop :=
  match out with
  | Returned (inl t) =>
      exists pre, seg = pre ++ [EvGenerate m p (GenText t)] /\
                  Forall (fun ev => ~ is_success ev) pre
  | Returned (inr _) => Forall (fun ev => ~ is_success ev) seg
  | Thrown _ => False
  end.

(** The array under [data] of a response body, if there is one. *)
Definition data_array (resp : http_response) : option (list json) :=
  match http_data resp with
  | Some (JObj fields) =>
      match obj_get "data" fields with
      | Some (JArr items) => Some items
      | _ => None
      end
  | _ => None
  end.

(** [d.embedding] for an entry [d] that is not [null]. *)
Definition embedding_of (d : json) : option json :=
  match d with
  | JObj fields => obj_get "embedding" fields
  | _ => None
  end.

Definition is_2xx (st : Z) : bool := (200 <=? st) && (st <? 300).

(** The message passes the check at the top of the handler. *)
Definition accepted (msg : js_message) : bool :=
  match msg with
  | MsgUndefined => false
  | MsgString s => negb (Js.all_white_space s)
  | MsgOther truthy => truthy
  end.

Definition user_entry (message : string) (t : Z) : history_entry :=
  {| role := "user"; content := message; ts := t |}.

Definition assistant_entry (reply : string) (t : Z) : history_entry :=
  {| role := "assistant"; content := reply; ts := t |}.

Definition friendly_response (req : request) : response :=
  {| status := 200; body := ReplyBody friendly_text [] (req_sessionId req) |}.

(** The four ways a request can go. *)
Definition rejected_path (env : Env) (req : request) (w w' : world)
    (out : outcome response) : Prop :=
  accepted (req_message req) = false /\ w' = w /\ out = Returned bad_request /\
  chat_try env req w = (w, Returned bad_request).

Definition failed_early_path (env : Env) (req : request) (w w' : world)
    (out : outcome response) : Prop :=
  exists w1 e seg,
    chat_try env req w = (w1, Thrown e) /\ w' = log_event (EvLog e) w1 /\
    out = Returned (friendly_response req) /\
    trace w' = trace w ++ seg /\ Forall not_embed seg /\
    history_of w' (req_sessionId req) = history_of w (req_sessionId req).

Definition failed_late_path (env : Env) (req : request) (w w' : world)
    (out : outcome response) : Prop :=
  let sid := req_sessionId req in
  let h0 := history_of w sid in
  exists w1 e message t rest,
    chat_try env req w = (w1, Thrown e) /\ w' = log_event (EvLog e) w1 /\
    out = Returned (friendly_response req) /\
    req_message req = MsgString message /\
    trace w' = trace w ++ [EvRedisGet (session_key sid);
                           EvRedisSet (session_key sid) (h0 ++ [user_entry message t])]
                       ++ EvEmbed [message] :: rest /\
    Forall not_embed rest /\
    history_of w' sid = h0 ++ [user_entry message t].

Definition replied_path (env : Env) (req : request) (w w' : world)
    (out : outcome response) : Prop :=
  let sid := req_sessionId req in
  let h0 := history_of w sid in
  exists message t rest reply sources t2,
    chat_try env req w = (w', Returned (reply_response reply sources sid)) /\
    out = Returned (reply_response reply sources sid) /\
    req_message req = MsgString message /\
    trace w' = trace w ++ [EvRedisGet (session_key sid);
                           EvRedisSet (session_key sid) (h0 ++ [user_entry message t])]
                       ++ EvEmbed [message] :: rest /\
    Forall not_embed rest /\
    history_of w' sid = h0 ++ [user_entry message t; assistant_entry reply t2].

(** The prompt once the instruction and the question are set aside. *)
Definition after_question (env : Env) (contexts : list retrieval_result) : string :=
  "Context:" +:+ Js.nl +:+ context_text env contexts +:+ Js.nl +:+ Js.nl +:+ "Answer:".





(** The services keep their contract: one embedding per text sent, and
    the store accepts every batch. *)
Definition services_keep_contract (env : Env) : Prop :=
  (forall t texts, exists vectors,
     embedding_result (jina_post env t texts) = Returned vectors /\
     length vectors = length texts) /\
  (forall t pts, qdrant_upsert env t pts = None).

End Traces.

(** ** Sample environments and requests *)

Module Examples.
Import Runtime Server.

Definition one_embedding : json := JObj [("embedding", JArr [JNum 1; JNum 2])].

(** One embedding per input text. *)
Definition jina_ok (texts : list string) : http_result :=
  HttpResponse {| http_status := 200;
                  http_data := Some (JObj [("data", JArr (map (fun _ => one_embedding) texts))]) |}.

(** A single embedding, however many texts were sent. *)
Definition jina_short (texts : list string) : http_result :=
  HttpResponse {| http_status := 200;
                  http_data := Some (JObj [("data", JArr [one_embedding])]) |}.

Definition busy : js_error :=
  {| err_status := Some 503; err_response_status := None; err_message := "overloaded" |}.

Definition bad_key : js_error :=
  {| err_status := Some 400; err_response_status := None; err_message := "API key not valid" |}.

Definition store_down : js_error :=
  {| err_status := None; err_response_status := None;
     err_message := "Reached the max retries per request limit" |}.

Definition two_hits : list hit :=
  [ {| hit_score := 81;
       hit_payload := Some {| payload_text := Some "Stocks rose.";
                              payload_url := Some "https://x/1";
                              payload_title := Some "A" |} |};
    {| hit_score := 77; hit_payload := None |} ].

(** Every service answers; the collection is empty. The hash and the
    number formatting are stand-ins. *)
Definition quiet_env : Env := {|
  GEMINI_MODEL := "gemini-1.5-flash";
  GEMINI_FALLBACK_MODEL := "gemini-1.5-flash-8b";
  jina_post := fun _ texts => jina_ok texts;
  qdrant_search := fun _ _ _ => SearchHits [];
  qdrant_upsert := fun _ _ => None;
  generateContent := fun _ _ _ => GenText "answer";
  redis_fault := fun _ => None;
  date_now := fun t => Z.of_nat t;
  md5_hex := fun s => s;
  toFixed3 := fun n => pretty n;
|}.

Definition with_generation (g : nat -> string -> string -> gen_result)
    (hits : list hit) : Env := {|
  GEMINI_MODEL := GEMINI_MODEL quiet_env;
  GEMINI_FALLBACK_MODEL := GEMINI_FALLBACK_MODEL quiet_env;
  jina_post := jina_post quiet_env;
  qdrant_search := fun _ _ _ => SearchHits hits;
  qdrant_upsert := qdrant_upsert quiet_env;
  generateContent := g;
  redis_fault := redis_fault quiet_env;
  date_now := date_now quiet_env;
  md5_hex := md5_hex quiet_env;
  toFixed3 := toFixed3 quiet_env;
|}.

(** The generation service is overloaded, whatever the model. *)
Definition busy_env : Env := with_generation (fun _ _ _ => GenError busy) two_hits.

(** The primary model rejects the request, the fallback model answers. *)
Definition fallback_env : Env :=
  with_generation (fun _ m _ => if String.eqb m "gemini-1.5-flash"
                                then GenError bad_key else GenText "answer") two_hits.

Definition answering_env : Env := with_generation (fun _ _ _ => GenText "answer") two_hits.

(** The embedding service returns too few vectors. *)
Definition short_env : Env := {|
  GEMINI_MODEL := GEMINI_MODEL quiet_env;
  GEMINI_FALLBACK_MODEL := GEMINI_FALLBACK_MODEL quiet_env;
  jina_post := fun _ texts => jina_short texts;
  qdrant_search := qdrant_search quiet_env;
  qdrant_upsert := qdrant_upsert quiet_env;
  generateContent := generateContent quiet_env;
  redis_fault := redis_fault quiet_env;
  date_now := date_now quiet_env;
  md5_hex := md5_hex quiet_env;
  toFixed3 := toFixed3 quiet_env;
|}.

(** The session store is unreachable. *)
Definition no_store_env : Env := {|
  GEMINI_MODEL := GEMINI_MODEL quiet_env;
  GEMINI_FALLBACK_MODEL := GEMINI_FALLBACK_MODEL quiet_env;
  jina_post := jina_post quiet_env;
  qdrant_search := fun _ _ _ => SearchHits two_hits;
  qdrant_upsert := qdrant_upsert quiet_env;
  generateContent := generateContent quiet_env;
  redis_fault := fun _ => Some store_down;
  date_now := date_now quiet_env;
  md5_hex := md5_hex quiet_env;
  toFixed3 := toFixed3 quiet_env;
|}.

(** The session store answers the first two commands and fails from the
    third on. *)
Definition fading_store_env : Env := {|
  GEMINI_MODEL := GEMINI_MODEL quiet_env;
  GEMINI_FALLBACK_MODEL := GEMINI_FALLBACK_MODEL quiet_env;
  jina_post := jina_post quiet_env;
  qdrant_search := qdrant_search quiet_env;
  qdrant_upsert := qdrant_upsert quiet_env;
  generateContent := generateContent quiet_env;
  redis_fault := fun t => if (2 <=? t)%nat then Some store_down else None;
  date_now := date_now quiet_env;
  md5_hex := md5_hex quiet_env;
  toFixed3 := toFixed3 quiet_env;
|}.




Definition sample_result : retrieval_result :=
  {| score := 81; text := "Stocks rose."; url := "https://x/1"; title := "A" |}.

Definition empty_world : world := {| trace := []; sessions := ∅; collection := ∅ |}.

Definition hello : request := {| req_sessionId := "s1"; req_message := MsgString "hi" |}.

End Examples.

(** ** Ingestion: the feed list and the documents taken from the feeds *)

Module Feeds.
Import Runtime.

(** [s.trim()], as the composition of its two halves. *)
Fixpoint trim_start (s : string) : string :=
  match s with
  | EmptyString => EmptyString
  | String c s' => if Js.is_white_space c then trim_start s' else s
  end.

Fixpoint trim_end (s : string) : string :=
  match s with
  | EmptyString => EmptyString
  | String c s' =>
      match trim_end s' with
      | EmptyString => if Js.is_white_space c then EmptyString else String c EmptyString
      | t => String c t
      end
  end.

Definition trim (s : string) : string := trim_end (trim_start s).

(** [s.split(sep)] for a separator of one code unit: the empty string
    splits into one empty piece. *)
Fixpoint split_on (sep : ascii) (s : string) : list string :=
  match s with
  | EmptyString => [EmptyString]
  | String c s' =>
      if Ascii.eqb c sep then EmptyString :: split_on sep s'
      else match split_on sep s' with
           | piece :: pieces => String c piece :: pieces
           | [] => [String c EmptyString]
           end
  end.

(** [Boolean(s)] for a string. *)
Definition truthy (s : string) : bool := negb (String.eqb s "").

(** [RSS_LIST], computed from the value of [NEWS_RSS_LIST] (the empty
    string when the variable is not set). *)
Definition RSS_LIST (NEWS_RSS_LIST : string) : list string :=
  List.filter truthy (map trim (split_on "," NEWS_RSS_LIST)).

(** A document as the acquisition step hands it to the pipeline. *)
Record document := {
  doc_url : string;
  doc_title : string;
  doc_text : string;
}.

(** [all.length >= limit]; [limit] is the result of [parseInt], [None]
    being [NaN], with which every comparison is false. *)
Definition reached (n : nat) (limit : option Z) : bool :=
  match limit with
  | Some l => Z.of_nat n >=? l
  | None => false
  end.

(** The inner loop of [getLatestNewsFromRss]: push, then test. *)
Fixpoint push_items (items : list document) (limit : option Z) (all : list document)
    : list document :=
  match items with
  | [] => all
  | it :: rest =>
      let all' := all ++ [it] in
      if reached (length all') limit then all' else push_items rest limit all'
  end.

(** The outer loop. [getItemsFromOneRss] never throws (it catches and
    returns an empty list); what it returns on the [k]-th call, for a given
    url, is [fetch k url]. The urls fetched are returned with the items. *)
Fixpoint rss_loop (fetch : nat -> string -> list document) (urls : list string)
    (limit : option Z) (all : list document) (fetched : list string)
    : list document * list string :=
  match urls with
  | [] => (all, fetched)
  | url :: rest =>
      let items := fetch (length fetched) url in
      let all' := push_items items limit all in
      let fetched' := fetched ++ [url] in
      if reached (length all') limit then (all', fetched')
      else rss_loop fetch rest limit all' fetched'
  end.

Definition getLatestNewsFromRss (fetch : nat -> string -> list document)
    (urls : list string) (limit : option Z) : list document * list string :=
  rss_loop fetch urls limit [] [].

(** What the feeds hold, in the order of the list. *)
Definition feed_items (fetch : nat -> string -> list document) (k0 : nat)
    (urls : list string) : list document :=
  concat (Js.mapi (fun url k => fetch k url) k0 urls).

(** No occurrence of the code unit in the string. *)
Fixpoint lacks (c : ascii) (s : string) : bool :=
  match s with
  | EmptyString => true
  | String c' s' => negb (Ascii.eqb c' c) && lacks c s'
  end.

(** A url that [RSS_LIST] hands back as it is. *)
Definition feed_url (u : string) : Prop :=
  u <> "" /\ trim u = u /\ lacks "," u = true.

(** *** The text of a feed item, in [getItemsFromOneRss]:
    [raw.replace(/<[^>]+>/g, ' ').replace(/\s+/g, ' ').trim()] *)

(** What follows the first [>] of the string, if there is one. *)
Fixpoint after_gt (s : string) : option string :=
  match s with
  | EmptyString => None
  | String c s' => if Ascii.eqb c ">" then Some s' else after_gt s'
  end.

(** A match of [<[^>]+>] at the start of the string, given as what
    follows the match: a [<], a code unit that is not [>], and then
    everything up to the first [>]. *)
Definition tag_at (s : string) : option string :=
  match s with
  | String c (String d s') =>
      if Ascii.eqb c "<" && negb (Ascii.eqb d ">") then after_gt s' else None
  | _ => None
  end.

(** [s.replace(/<[^>]+>/g, ' ')]: the matches are looked for from left to
    right, the search resuming after each match. Every step consumes a code
    unit, so that the length of the string is fuel enough. *)
Fixpoint replace_tags (fuel : nat) (s : string) : string :=
  match fuel, s with
  | S fuel', String c s' =>
      match tag_at s with
      | Some rest => String " " (replace_tags fuel' rest)
      | None => String c (replace_tags fuel' s')
      end
  | _, _ => s
  end.

Definition strip_tags (s : string) : string := replace_tags (String.length s) s.

(** [s.replace(/\s+/g, ' ')]: of a run of white space only a space is
    left, in the place of the last code unit of the run. *)
Fixpoint collapse_spaces (s : string) : string :=
  match s with
  | EmptyString => EmptyString
  | String c s' =>
      if Js.is_white_space c then
        match s' with
        | EmptyString => String " " EmptyString
        | String d _ =>
            if Js.is_white_space d then collapse_spaces s'
            else String " " (collapse_spaces s')
        end
      else String c (collapse_spaces s')
  end.

Definition item_text (raw : string) : string :=
  trim (collapse_spaces (strip_tags raw)).

(** The string starts with a [>]. *)
Definition starts_with_gt (t : string) : bool :=
  match t with
  | EmptyString => false
  | String d _ => Ascii.eqb d ">"
  end.

(** Some match of [<[^>]+>] in the string. *)
Fixpoint has_tag (s : string) : bool :=
  match s with
  | EmptyString => false
  | String _ s' => match tag_at s with Some _ => true | None => false end || has_tag s'
  end.

(** The only white space of the string is the space, and no space is
    followed by white space. *)
Fixpoint spaced (s : string) : bool :=
  match s with
  | EmptyString => true
  | String c s' =>
      (if Js.is_white_space c
       then Ascii.eqb c " " &&
            match s' with
            | EmptyString => true
            | String d _ => negb (Js.is_white_space d)
            end
       else true) && spaced s'
  end.

(** The string is empty or starts with a code unit that [trim] keeps. *)
Definition starts_clean (s : string) : Prop :=
  match s with
  | EmptyString => True
  | String c _ => Js.is_white_space c = false
  end.

(** An item for the examples. *)
Definition sample_doc (n : nat) : document :=
  {| doc_url := "https://x/" +:+ pretty n; doc_title := "T"; doc_text := "..." |}.

End Feeds.

(** ** Ingestion: the loop of [main] over the documents *)

Module Pipeline.
Import Runtime Ingest Feeds.

(** [for (const data of docs) { try { ... } catch (e) { ... } }]. *)
Fixpoint ingest_all (env : Env) (docs : list document) (w : world)
    : option (world * outcome unit) :=
  match docs with
  | [] => Some (w, Returned tt)
  | data :: rest =>
      match ingest_document env (doc_url data) (doc_title data) (doc_text data) w with
      | None => None
      | Some (w1, Thrown e) => Some (w1, Thrown e)
      | Some (w1, Returned _) => ingest_all env rest w1
      end
  end.

(** The points sent to the store by the upsert calls of a trace. *)
Definition upserted_points (tr : list event) : list point :=
  flat_map (fun ev => match ev with EvUpsert pts => pts | _ => [] end) tr.

(** The batches sent to the embedding service by a trace. *)
Definition embedded_batches (tr : list event) : list (list string) :=
  flat_map (fun ev => match ev with EvEmbed texts => [texts] | _ => [] end) tr.

(** A point built by [upsert] for the document [url], [title]. *)
Definition point_of (env : Env) (url title : string) (p : point) : Prop :=
  point_url p = url /\ point_title p = title /\
  exists j, point_id p = point_id_of env url j.

End Pipeline.

(** ** The chat server: the session routes, and measures of a trace *)

Module Routes.
Import Runtime Server.

Inductive route_response :=
| HistoryBody (sessionId : string) (history : list history_entry)
| OkBody
| FailureBody (status : Z) (error : string).

(** [GET /api/session/:id/history]; the answer has status 200 unless it
    is a [FailureBody]. *)
Definition history_route (env : Env) (id : string) : M route_response :=
  try_catch
    (history ← getHistory env id; mret (HistoryBody id history))
    (fun err =>
       emit (EvLog err);;
       match err with
       | Some e => mret (FailureBody 500 (err_message e))
       | None => throw (Some (type_error "Cannot read properties of undefined"))
       end).

Definition del_session (key : string) (w : world) : world :=
  {| trace := trace w; sessions := delete key (sessions w); collection := collection w |}.

(** [DELETE /api/session/:id], as its effect on the world: the [DEL]
    command is refused when the store is at fault, and is itself not
    recorded as an event of the trace. *)
Definition delete_route (env : Env) (id : string) (w : world) : world * route_response :=
  match redis_fault env (time w) with
  | Some e => (log_event (EvLog (Some e)) w, FailureBody 500 (err_message e))
  | None => (del_session (session_key id) w, OkBody)
  end.

(** The total of the waits requested in a trace, in ms. *)
Definition total_wait (tr : list event) : Z :=
  fold_right (fun ev acc => match ev with EvSleep ms => ms + acc | _ => acc end) 0 tr.

Definition count_events (f : event -> bool) (tr : list event) : nat :=
  length (List.filter f tr).

Definition is_embed (ev : event) : bool :=
  match ev with EvEmbed _ => true | _ => false end.

Definition is_search (ev : event) : bool :=
  match ev with EvSearch _ _ => true | _ => false end.

Definition is_store (ev : event) : bool :=
  match ev with EvRedisGet _ | EvRedisSet _ _ => true | _ => false end.

(** The waits of the attempts [a], [a+1], ..., [a+n-1]. *)
Definition schedule (a n : nat) : Z :=
  fold_right Z.add 0 (map wait_for (seq a n)).

(** A bound on the calls of a piece of trace: embedding calls, searches,
    generation calls, commands to the session store, total wait, and no
    upsert at all. *)
Definition within (e s g r : nat) (ms : Z) (seg : list event) : Prop :=
  (count_events is_embed seg <= e)%nat /\
  (count_events is_search seg <= s)%nat /\
  (count_events is_generate seg <= g)%nat /\
  (count_events is_store seg <= r)%nat /\
  total_wait seg <= ms /\
  Forall (fun ev => match ev with EvUpsert _ => False | _ => True end) seg.

(** The sessions other than the one of the key are as they were. *)
Definition other_sessions_kept (key : string) (w w' : world) : Prop :=
  forall k, k <> key -> sessions w' !! k = sessions w !! k.

(** The error of the last failed generation call of a piece of trace,
    [d] when there is none: the value of [lastErr] after these calls. *)
Definition last_failure (d : option js_error) (seg : list event) : option js_error :=
  fold_left (fun acc ev => match ev with
                           | EvGenerate _ _ (GenError e) => Some e
                           | _ => acc
                           end) seg d.

End Routes.

(** ** Theorems: chunker *)

Module ChunkerFacts.
Import Chunker.

Lemma chunk_loop_spans fuel text cs ov mc i chunks :
  chunk_loop fuel text cs ov mc i chunks =
  (fun sp => chunks ++ map (slice_span text) sp) <$>
    spans_from fuel (Z.of_nat (String.length text)) cs ov mc i (length chunks).
Proof.
  revert i chunks. induction fuel as [|fuel IH]; intros i chunks; simpl.
  - destruct (_ && _); simpl; [reflexivity | by rewrite app_nil_r].
  - destruct (_ && _); simpl; [| by rewrite app_nil_r].
    rewrite IH. rewrite length_app. simpl.
    replace (length chunks + 1)%nat with (S (length chunks)) by lia.
    destruct (spans_from _ _ _ _ _ _ _) as [sp|]; simpl; [|reflexivity].
    by rewrite <- app_assoc.
Qed.

Lemma chunkText_spans text cs ov mc :
  chunkText text cs ov mc = map (slice_span text) <$> chunkSpans text cs ov mc.
Proof.
  unfold chunkText, chunkSpans. rewrite chunk_loop_spans. simpl.
  by destruct (spans_from _ _ _ _ _ _ _).
Qed.

(** The loop never runs out of fuel: [maxChunks - count] iterations are
    enough from a state with [count] chunks. *)
Lemma spans_from_total fuel L cs ov mc i count :
  (mc - Z.of_nat count <= Z.of_nat fuel) ->
  exists sp, spans_from fuel L cs ov mc i count = Some sp /\
             (Z.of_nat (length sp) <= Z.max (mc - Z.of_nat count) 0).
Proof.
  revert i count. induction fuel as [|fuel IH]; intros i count Hf; simpl.
  - destruct (i <? L) eqn:Hi; simpl.
    + destruct (Z.ltb_spec (Z.of_nat count) mc); [lia|].
      exists []. split; [reflexivity | simpl; lia].
    + exists []. split; [reflexivity | simpl; lia].
  - destruct ((i <? L) && (Z.of_nat count <? mc)) eqn:Hc.
    + apply andb_true_iff in Hc as [_ Hc]. apply Z.ltb_lt in Hc.
      destruct (IH (if Z.min (i + cs) L - ov <? 0 then 0 else Z.min (i + cs) L - ov)
                  (S count)) as (sp & -> & Hlen); [lia|].
      exists ((i, Z.min (i + cs) L) :: sp). split; [reflexivity|].
      simpl length. lia.
    + exists []. split; [reflexivity | simpl; lia].
Qed.

Lemma chunkSpans_total text cs ov mc :
  exists sp, chunkSpans text cs ov mc = Some sp /\
             Z.of_nat (length sp) <= Z.max mc 0.
Proof.
  unfold chunkSpans.
  destruct (spans_from_total (Z.to_nat mc) (Z.of_nat (String.length text)) cs ov mc 0 0)
    as (sp & H & Hl); [lia|].
  exists sp. split; [done | lia].
Qed.

Lemma chunkText_total text cs ov mc :
  exists chunks, chunkText text cs ov mc = Some chunks /\
                 Z.of_nat (length chunks) <= Z.max mc 0.
Proof.
  destruct (chunkSpans_total text cs ov mc) as (sp & H & Hl).
  exists (map (slice_span text) sp). rewrite chunkText_spans, H. split; [done|].
  by rewrite length_map.
Qed.

Lemma spans_from_inv fuel L cs ov mc i count sp :
  spans_from fuel L cs ov mc i count = Some sp ->
  (sp = [] /\ (L <= i \/ mc <= Z.of_nat count)) \/
  (exists fuel' rest, fuel = S fuel' /\ i < L /\ Z.of_nat count < mc /\
     sp = (i, Z.min (i + cs) L) :: rest /\
     spans_from fuel' L cs ov mc (next_cursor L cs ov i) (S count) = Some rest).
Proof.
  destruct fuel as [|fuel]; simpl;
    destruct (Z.ltb_spec i L); destruct (Z.ltb_spec (Z.of_nat count) mc); simpl;
    intros Hsp; try discriminate; try (injection Hsp as <-; left; split; [done | lia]).
  right. fold (next_cursor L cs ov i) in Hsp.
  destruct (spans_from fuel L cs ov mc _ _) as [rest|] eqn:E; [|discriminate].
  injection Hsp as <-. by exists fuel, rest.
Qed.

Section Overlapping.
Variables L C O M : Z.
Hypothesis overlap_nonneg : 0 <= O.
Hypothesis overlap_small : O < C.

Lemma next_cursor_range i :
  0 <= i < L -> 0 <= next_cursor L C O i <= Z.min (i + C) L.
Proof. unfold next_cursor. intros. destruct (Z.ltb_spec (Z.min (i + C) L - O) 0); lia. Qed.

Lemma next_cursor_max i :
  0 <= i < L -> next_cursor L C O i = Z.max (Z.min (i + C) L - O) 0.
Proof. unfold next_cursor. intros. destruct (Z.ltb_spec (Z.min (i + C) L - O) 0); lia. Qed.




(** Ends never decrease along the list, so the last end is the largest. *)
Lemma spans_last_end_ge fuel i count sp :
  0 <= i -> spans_from fuel L C O M i count = Some sp -> sp <> [] ->
  Z.min (i + C) L <= last_end sp.
Proof.
  revert i count sp. induction fuel as [|fuel IH]; intros i count sp Hi H Hne;
    apply spans_from_inv in H as [[-> _]|(f & rest & Hf & HiL & Hc & -> & Hrest)];
    try done.
  injection Hf as <-. destruct rest as [|sp1 rest]; [unfold last_end; simpl; lia|].
  pose proof (next_cursor_range i ltac:(lia)) as Hn.
  pose proof (next_cursor_max i ltac:(lia)) as Hm.
  specialize (IH _ _ _ (proj1 Hn) Hrest ltac:(done)).
  unfold last_end in *. simpl in *. lia.
Qed.

Lemma spans_cover fuel i count sp :
  0 <= i -> spans_from fuel L C O M i count = Some sp ->
  covers i (last_end sp) sp.
Proof.
  revert i count sp. induction fuel as [|fuel IH]; intros i count sp Hi H;
    apply spans_from_inv in H as [[-> _]|(f & rest & Hf & HiL & Hc & -> & Hrest)];
    try (intros p Hp; unfold last_end in Hp; simpl in Hp; lia).
  injection Hf as <-. intros p Hp.
  destruct (Z.lt_ge_cases p (Z.min (i + C) L)) as [Hlt|Hge].
  - exists i, (Z.min (i + C) L). split; [by left | lia].
  - pose proof (next_cursor_range i ltac:(lia)) as Hn.
    destruct rest as [|sp1 rest]; [unfold last_end in Hp; simpl in Hp; lia|].
    destruct (IH _ _ _ (proj1 Hn) Hrest p) as (s & e & Hin & Hse).
    { unfold last_end in *. simpl in *. lia. }
    exists s, e. split; [by right | done].
Qed.


(** Closed form of the end offsets: chunk [k] of a run that is at chunk
    [count] with a cursor [i] such that [min (i + C) L = min T L]. *)
Lemma spans_end_closed_form fuel i count sp T :
  0 <= i -> C <= T -> Z.min (i + C) L = Z.min T L ->
  spans_from fuel L C O M i count = Some sp ->
  forall (k : nat) s e, sp !! k = Some (s, e) ->
    e = Z.min (T + Z.of_nat k * (C - O)) L.
Proof.
  revert i count sp T. induction fuel as [|fuel IH]; intros i count sp T Hi HT HiT H;
    apply spans_from_inv in H as [[-> _]|(f & rest & Hf & HiL & Hc & -> & Hrest)];
    try (intros k ? ? Hk; destruct k; discriminate).
  injection Hf as <-. intros [|k] s e Hk; simpl in Hk.
  - injection Hk as <- <-. lia.
  - pose proof (next_cursor_range i ltac:(lia)) as Hn.
    pose proof (next_cursor_max i ltac:(lia)) as Hm.
    rewrite (IH _ _ _ (T + (C - O)) (proj1 Hn) ltac:(lia) ltac:(lia) Hrest k s e Hk).
    f_equal. lia.
Qed.

(** With a positive overlap the cursor never reaches the end of a
    non-empty text: the loop always runs to the cap. *)
Lemma spans_count_positive_overlap fuel i count sp :
  0 < O -> 0 <= i < L ->
  spans_from fuel L C O M i count = Some sp ->
  Z.of_nat (length sp) = Z.max (M - Z.of_nat count) 0.
Proof.
  intros HO. revert i count sp. induction fuel as [|fuel IH]; intros i count sp Hi H;
    apply spans_from_inv in H as [[-> Hstop]|(f & rest & Hf & HiL & Hc & -> & Hrest)];
    try (simpl; lia).
  injection Hf as <-. simpl length.
  pose proof (next_cursor_max i ltac:(lia)) as Hm.
  assert (0 <= next_cursor L C O i < L) as Hn by lia.
  rewrite Nat2Z.inj_succ, (IH _ _ _ Hn Hrest). lia.
Qed.

End Overlapping.

Lemma substring_length n m s :
  (n + m <= String.length s)%nat -> String.length (substring n m s) = m.
Proof.
  revert n m. induction s as [|c s IH]; intros [|n] [|m] H; simpl in *;
    try reflexivity; try lia.
  - f_equal. apply (IH 0%nat m). lia.
  - apply (IH n 0%nat). lia.
  - apply (IH n (S m)). lia.
Qed.

Lemma substring_all s : substring 0 (String.length s) s = s.
Proof. induction s as [|c s IH]; simpl; [reflexivity | by rewrite IH]. Qed.

(** A chunk is the text between the offsets of its span. *)
Lemma slice_span_length text s e :
  0 <= s -> s <= e -> e <= Z.of_nat (String.length text) ->
  Z.of_nat (String.length (slice_span text (s, e))) = e - s.
Proof.
  intros Hs Hse He. unfold slice_span, Js.slice. simpl.
  destruct (Z.ltb_spec s 0); [lia|]. destruct (Z.ltb_spec e 0); [lia|].
  rewrite substring_length; lia.
Qed.

Lemma slice_span_get text s e (j : nat) :
  0 <= s -> s <= e -> e <= Z.of_nat (String.length text) -> Z.of_nat j < e - s ->
  String.get j (slice_span text (s, e)) = String.get (j + Z.to_nat s) text.
Proof.
  intros Hs Hse He Hj. unfold slice_span, Js.slice. simpl.
  destruct (Z.ltb_spec s 0); [lia|]. destruct (Z.ltb_spec e 0); [lia|].
  rewrite substring_correct1 by lia. f_equal. lia.
Qed.

Lemma last_end_lookup (sp : list (Z * Z)) n s e :
  length sp = S n -> sp !! n = Some (s, e) -> last_end sp = e.
Proof.
  unfold last_end. revert n. induction sp as [|a sp IH]; intros n Hl Hk; [done|].
  destruct sp as [|b sp].
  - simpl in Hl. assert (n = 0%nat) as -> by lia. simpl in Hk. by injection Hk as ->.
  - destruct n as [|n]; [simpl in Hl; lia|].
    change (List.last (a :: b :: sp) (0, 0)) with (List.last (b :: sp) (0, 0)).
    apply (IH n); [simpl in *; lia | exact Hk].
Qed.

(** With overlap 0 a short text is one chunk: the loop leaves as soon as
    the cursor reaches the end of the text. *)
Lemma chunkText_no_overlap_short text C M :
  0 < Z.of_nat (String.length text) <= C -> 1 <= M ->
  chunkText text C 0 M = Some [text].
Proof.
  intros HL HM. unfold chunkText.
  assert (Js.slice text 0 (Z.of_nat (String.length text)) = text) as Hall.
  { unfold Js.slice. simpl.
    destruct (Z.ltb_spec (Z.of_nat (String.length text)) 0); [lia|].
    replace (Z.to_nat (Z.min 0 (Z.of_nat (String.length text)))) with 0%nat by lia.
    replace (Z.to_nat _) with (String.length text) by lia.
    apply substring_all. }
  destruct (Z.to_nat M) as [|fuel] eqn:EM; [lia|].
  cbn [chunk_loop length].
  destruct (Z.ltb_spec 0 (Z.of_nat (String.length text))); [|lia].
  destruct (Z.ltb_spec (Z.of_nat 0) M); [|lia]. cbn [andb app].
  rewrite Z.add_0_l, Z.min_r, Z.sub_0_r, Hall by lia.
  destruct (Z.ltb_spec (Z.of_nat (String.length text)) 0); [lia|].
  destruct fuel; cbn [chunk_loop]; by rewrite Z.ltb_irrefl.
Qed.

(** With a positive overlap every non-empty text yields [maxChunks]
    chunks, whatever its length. *)
Lemma chunkText_positive_overlap_count text C O M :
  0 < O -> O < C -> text <> "" ->
  exists chunks, chunkText text C O M = Some chunks /\
                 Z.of_nat (length chunks) = Z.max M 0.
Proof.
  intros HO HC Hne.
  destruct (chunkSpans_total text C O M) as (sp & Hsp & _).
  exists (map (slice_span text) sp). rewrite chunkText_spans, Hsp. split; [done|].
  rewrite length_map. unfold chunkSpans in Hsp.
  rewrite (spans_count_positive_overlap (Z.of_nat (String.length text)) C O M HC
             (Z.to_nat M) 0 0%nat sp HO); [lia | | exact Hsp].
  destruct text; [done | simpl; lia].
Qed.

(** C1. A non-empty text no longer than [chunkSize] should yield exactly
    one chunk, the loop stopping once the text is consumed. With a positive
    overlap the cursor is set back behind the end of the text after every
    chunk, so the loop goes on to the cap: the three-letter text below,
    with chunk size 4, overlap 1 and cap 10, yields ten chunks, its tail
    repeated nine times; with the defaults of [chunkText] it yields 80. *)
Theorem C1_short_text_runs_to_cap :
  chunkText "abc" 4 1 10 =
    Some ["abc"; "c"; "c"; "c"; "c"; "c"; "c"; "c"; "c"; "c"] /\
  chunkText "abcdefghij" 4 1 10 =
    Some ["abcd"; "defg"; "ghij"; "j"; "j"; "j"; "j"; "j"; "j"; "j"] /\
  chunkText_default "abc" = Some (repeat "abc" 80).
Proof. repeat split; vm_compute; reflexivity. Qed.




End ChunkerFacts.

(** ** Theorems: generation with retries *)

Module GenerationFacts.
Import Runtime Server Traces.

Section WithEnv.
Variable env : Env.

Lemma retriable_statuses err :
  retriable err = true <->
  exists s, error_status err = Some s /\
            (s = 429 \/ s = 500 \/ s = 502 \/ s = 503 \/ s = 504).
Proof.
  unfold retriable. destruct (error_status err) as [s|].
  - rewrite !orb_true_iff, !Z.eqb_eq. split.
    + intros H. exists s. split; [done | tauto].
    + intros (s' & [= <-] & H). tauto.
  - split; [done | by intros (s & ? & _)].
Qed.

Lemma attempt_loop_step remaining a m p lastErr w :
  attempt_loop env (S remaining) a m p lastErr w =
  let r := generateContent env (time w) m p in
  let w1 := log_event (EvGenerate m p r) w in
  match r with
  | GenText t => (w1, Returned (inl t))
  | GenError err =>
      if retriable err
      then attempt_loop env remaining (S a) m p (Some err)
             (log_event (EvSleep (wait_for a)) w1)
      else (w1, Returned (inr (Some err)))
  end.
Proof.
  cbn [attempt_loop]. unfold mbind, M_bind, get_time, emit. cbn.
  destruct (generateContent env (time w) m p) as [t|err]; [reflexivity|].
  destruct (retriable err); reflexivity.
Qed.

Lemma models_loop_step m rest p n lastErr w :
  models_loop env (m :: rest) p n lastErr w =
  match attempt_loop env n 0 m p lastErr w with
  | (w', Returned (inl t)) => (w', Returned t)
  | (w', Returned (inr lastErr')) => models_loop env rest p n lastErr' w'
  | (w', Thrown e) => (w', Thrown e)
  end.
Proof.
  cbn [models_loop]. unfold mbind, M_bind.
  destruct (attempt_loop env n 0 m p lastErr w) as [w' [[t|l]|e]]; reflexivity.
Qed.

Lemma attempt_loop_shape remaining a m p lastErr w w' out :
  attempt_loop env remaining a m p lastErr w = (w', out) ->
  sessions w' = sessions w /\ collection w' = collection w /\
  exists seg, trace w' = trace w ++ seg /\ Forall (on_model m) seg /\
              attempt_shape m p seg out.
Proof.
  revert a lastErr w. induction remaining as [|n IH]; intros a lastErr w Hrun.
  - injection Hrun as <- <-. split; [done|]. split; [done|].
    exists []. rewrite app_nil_r. repeat split; constructor.
  - rewrite attempt_loop_step in Hrun. cbv zeta in Hrun.
    destruct (generateContent env (time w) m p) as [t|err] eqn:Hr.
    { injection Hrun as <- <-. split; [done|]. split; [done|].
      exists [EvGenerate m p (GenText t)]. split; [done|]. split.
      - by repeat constructor.
      - exists []. by split; [|constructor]. }
    destruct (retriable err) eqn:Hret.
    + apply IH in Hrun as (Hs & Hc & seg & Htr & Hon & Hshape).
      split; [done|]. split; [done|].
      exists (EvGenerate m p (GenError err) :: EvSleep (wait_for a) :: seg).
      split; [rewrite Htr; simpl; by rewrite <- !app_assoc|].
      split; [by repeat constructor|].
      destruct out as [[t|l]|e]; simpl in *; [| |done].
      * destruct Hshape as (pre & -> & Hpre).
        exists (EvGenerate m p (GenError err) :: EvSleep (wait_for a) :: pre).
        split; [done|]. repeat constructor; auto.
      * repeat constructor; auto.
    + injection Hrun as <- <-. split; [done|]. split; [done|].
      exists [EvGenerate m p (GenError err)]. split; [done|].
      split; repeat constructor; auto.
Qed.

Lemma success_is_last (pre pre' post : list event) (s ev : event) :
  Forall (fun ev => ~ is_success ev) pre ->
  pre ++ [s] = pre' ++ ev :: post -> is_success ev ->
  post = [] /\ ev = s.
Proof.
  revert pre'. induction pre as [|x pre IH]; intros pre' Hno Heq Hev.
  - destruct pre' as [|y [|z pre']]; simpl in Heq; try discriminate.
    by injection Heq as <- <-.
  - inversion Hno as [|? ? Hx Hpre]; subst.
    destruct pre' as [|y pre']; simpl in Heq; injection Heq as -> Heq.
    + contradiction.
    + by apply (IH pre').
Qed.

Lemma no_success_in (seg pre post : list event) (ev : event) :
  Forall (fun ev => ~ is_success ev) seg ->
  seg = pre ++ ev :: post -> ~ is_success ev.
Proof.
  intros Hno ->. rewrite List.Forall_forall in Hno. apply Hno.
  apply in_or_app. right. by left.
Qed.

(** All attempts failing with a retriable status: the inner loop makes
    [remaining] calls, each followed by its wait, and leaves with the
    last error. *)
Lemma attempt_loop_all_retriable remaining a m p lastErr w :
  (forall t m p, exists e, generateContent env t m p = GenError e /\ retriable e = true) ->
  exists w' errs,
    attempt_loop env remaining a m p lastErr w =
      (w', Returned (inr (last_error lastErr errs))) /\
    length errs = remaining /\
    Forall (fun e => retriable e = true) errs /\
    trace w' = trace w ++ retried_attempts m p a errs /\
    sessions w' = sessions w /\ collection w' = collection w.
Proof.
  intros Hall. revert a lastErr w.
  induction remaining as [|n IH]; intros a lastErr w.
  - exists w, []. unfold retried_attempts. simpl. rewrite app_nil_r.
    repeat split; constructor.
  - rewrite attempt_loop_step. cbv zeta.
    destruct (Hall (time w) m p) as (err & -> & Hret). rewrite Hret.
    destruct (IH (S a) (Some err)
                (log_event (EvSleep (wait_for a))
                   (log_event (EvGenerate m p (GenError err)) w)))
      as (w' & errs & -> & Hlen & Hre & Htr & Hs & Hc).
    exists w', (err :: errs). repeat split; try done.
    + simpl. by rewrite Hlen.
    + by constructor.
    + rewrite Htr. unfold retried_attempts. simpl. by rewrite <- !app_assoc.
Qed.

Lemma retried_attempts_calls m p a errs :
  List.filter is_generate (retried_attempts m p a errs) =
    map (fun e => EvGenerate m p (GenError e)) errs /\
  List.filter (fun ev => negb (is_generate ev)) (retried_attempts m p a errs) =
    map (fun k => EvSleep (wait_for k)) (seq a (length errs)).
Proof.
  unfold retried_attempts. revert a.
  induction errs as [|e errs IH]; intros a; simpl; [done|].
  destruct (IH (S a)) as [-> ->]. done.
Qed.

Lemma on_model_generation m seg :
  Forall (on_model m) seg -> Forall generation_event seg.
Proof.
  intros H. eapply List.Forall_impl; [|exact H]. by intros [].
Qed.

Lemma time_log_event ev w : time (log_event ev w) = S (time w).
Proof. unfold time, log_event. simpl. rewrite length_app. simpl. lia. Qed.

(** What [generateWithRetries] adds to the trace, and how it ends. *)
Lemma generateWithRetries_shape primary prompt n w w' out :
  generateWithRetries env primary prompt n w = (w', out) ->
  sessions w' = sessions w /\ collection w' = collection w /\
  exists seg, trace w' = trace w ++ seg /\ Forall generation_event seg /\
    match out with
    | Returned t =>
        exists pre m, seg = pre ++ [EvGenerate m prompt (GenText t)] /\
                      Forall (fun ev => ~ is_success ev) pre
    | Thrown _ => Forall (fun ev => ~ is_success ev) seg
    end.
Proof.
  unfold generateWithRetries. rewrite models_loop_step.
  destruct (attempt_loop env n 0 primary prompt None w) as [w1 out1] eqn:H1.
  apply attempt_loop_shape in H1 as (Hs1 & Hc1 & seg1 & Htr1 & Hon1 & Hsh1).
  apply on_model_generation in Hon1.
  destruct out1 as [[t|l1]|e]; simpl in Hsh1; [| |done].
  { intros [= <- <-]. split; [done|]. split; [done|].
    exists seg1. split; [done|]. split; [done|].
    destruct Hsh1 as (pre & -> & Hpre). by exists pre, primary. }
  rewrite models_loop_step.
  destruct (attempt_loop env n 0 (GEMINI_FALLBACK_MODEL env) prompt l1 w1)
    as [w2 out2] eqn:H2.
  apply attempt_loop_shape in H2 as (Hs2 & Hc2 & seg2 & Htr2 & Hon2 & Hsh2).
  apply on_model_generation in Hon2.
  destruct out2 as [[t|l2]|e]; simpl in Hsh2; [| |done].
  - intros [= <- <-]. split; [congruence|]. split; [congruence|].
    exists (seg1 ++ seg2). split; [by rewrite Htr2, Htr1, <- app_assoc|].
    split; [by apply List.Forall_app|].
    destruct Hsh2 as (pre & -> & Hpre).
    exists (seg1 ++ pre), (GEMINI_FALLBACK_MODEL env).
    split; [by rewrite <- app_assoc|]. by apply List.Forall_app.
  - cbn [models_loop]. unfold throw. intros [= <- <-].
    split; [congruence|]. split; [congruence|].
    exists (seg1 ++ seg2). split; [by rewrite Htr2, Htr1, <- app_assoc|].
    split; by apply List.Forall_app.
Qed.

End WithEnv.

(** C3. When every attempt fails with a retriable status, the call is
    attempted exactly [maxAttempts] times on the primary model, then
    exactly [maxAttempts] times on the fallback model, attempt [a] being
    followed by a wait of [delays[min(a, 3)]] of the schedule 400, 800,
    1600, 3200 ms, and the last observed error is thrown ([undefined] if
    [maxAttempts] is 0, no error having been observed). *)
Theorem C3_retriable_failures_exhaust_both_models env primary prompt maxAttempts w :
  (forall t m p, exists e, generateContent env t m p = GenError e /\ retriable e = true) ->
  exists w' errs1 errs2,
    generateWithRetries env primary prompt maxAttempts w =
      (w', Thrown (last_error None (errs1 ++ errs2))) /\
    length errs1 = maxAttempts /\ length errs2 = maxAttempts /\
    trace w' = trace w ++ retried_attempts primary prompt 0 errs1
                       ++ retried_attempts (GEMINI_FALLBACK_MODEL env) prompt 0 errs2 /\
    List.filter is_generate (retried_attempts primary prompt 0 errs1) =
      map (fun e => EvGenerate primary prompt (GenError e)) errs1 /\
    List.filter is_generate (retried_attempts (GEMINI_FALLBACK_MODEL env) prompt 0 errs2) =
      map (fun e => EvGenerate (GEMINI_FALLBACK_MODEL env) prompt (GenError e)) errs2 /\
    (forall a, wait_for a = nth (Nat.min a 3) [400; 800; 1600; 3200] 0) /\
    sessions w' = sessions w /\ collection w' = collection w.
Proof.
  intros Hall. unfold generateWithRetries. rewrite models_loop_step.
  destruct (attempt_loop_all_retriable env maxAttempts 0 primary prompt None w Hall)
    as (w1 & errs1 & -> & Hl1 & _ & Htr1 & Hs1 & Hc1).
  rewrite models_loop_step.
  destruct (attempt_loop_all_retriable env maxAttempts 0 (GEMINI_FALLBACK_MODEL env)
              prompt (last_error None errs1) w1 Hall)
    as (w2 & errs2 & -> & Hl2 & _ & Htr2 & Hs2 & Hc2).
  exists w2, errs1, errs2. cbn [models_loop]. unfold throw.
  split; [by unfold last_error; rewrite fold_left_app|].
  split; [done|]. split; [done|].
  split; [by rewrite Htr2, Htr1, <- app_assoc|].
  split; [apply retried_attempts_calls|]. split; [apply retried_attempts_calls|].
  split; [done|]. split; congruence.
Qed.

(** C4. Whatever the services answer: if the first attempt on the primary
    model fails with a status that is not retriable, the next call is the
    first attempt on the fallback model, with no wait in between, and every
    later call is on the fallback model; a successful call is the last
    event of the run and its text is the result; a success on the primary
    model ends the run with the calls of the primary model only. *)
Theorem C4_non_retriable_goes_to_fallback_success_returns
    env primary prompt maxAttempts w w' out :
  generateWithRetries env primary prompt maxAttempts w = (w', out) ->
  (forall e, (1 <= maxAttempts)%nat ->
     generateContent env (time w) primary prompt = GenError e ->
     retriable e = false ->
     exists rest,
       trace w' = trace w ++
         EvGenerate primary prompt (GenError e) ::
         EvGenerate (GEMINI_FALLBACK_MODEL env) prompt
           (generateContent env (S (time w)) (GEMINI_FALLBACK_MODEL env) prompt) :: rest /\
       Forall (on_model (GEMINI_FALLBACK_MODEL env)) rest) /\
  (forall pre ev post, trace w' = trace w ++ pre ++ ev :: post -> is_success ev ->
     post = [] /\ exists m t, ev = EvGenerate m prompt (GenText t) /\ out = Returned t) /\
  (forall w1 t, attempt_loop env maxAttempts 0 primary prompt None w = (w1, Returned (inl t)) ->
     w' = w1 /\ out = Returned t /\
     exists seg, trace w' = trace w ++ seg /\ Forall (on_model primary) seg).
Proof.
  intros Hrun. split; [|split].
  - intros e Hn Hfirst Hret. destruct maxAttempts as [|n]; [lia|].
    unfold generateWithRetries in Hrun. rewrite models_loop_step in Hrun.
    rewrite attempt_loop_step in Hrun. cbv zeta in Hrun. rewrite Hfirst, Hret in Hrun.
    rewrite models_loop_step in Hrun. rewrite attempt_loop_step in Hrun.
    cbv zeta in Hrun. rewrite time_log_event in Hrun.
    set (fb := GEMINI_FALLBACK_MODEL env) in *.
    set (w1 := log_event (EvGenerate primary prompt (GenError e)) w) in *.
    set (r2 := generateContent env (S (time w)) fb prompt) in *.
    assert (trace (log_event (EvGenerate fb prompt r2) w1) =
            trace w ++ [EvGenerate primary prompt (GenError e); EvGenerate fb prompt r2])
      as Htr by (simpl; by rewrite <- app_assoc).
    destruct r2 as [t|err].
    + injection Hrun as <- <-. exists []. by rewrite Htr.
    + destruct (retriable err).
      * destruct (attempt_loop env n 1 fb prompt (Some err) _) as [w2 out2] eqn:H2.
        apply attempt_loop_shape in H2 as (_ & _ & seg & Hseg & Hon & _).
        exists (EvSleep (wait_for 0) :: seg). split; [|by constructor].
        assert (trace w' = trace w2) as ->.
        { destruct out2 as [[?|?]|?]; cbn [models_loop] in Hrun; unfold throw in Hrun;
            by injection Hrun as <- _. }
        rewrite Hseg. subst w1. cbn [log_event trace].
        by rewrite <- !app_assoc.
      * cbn [models_loop] in Hrun. unfold throw in Hrun. injection Hrun as <- <-.
        exists []. by rewrite Htr.
  - intros pre ev post Htr Hev.
    apply generateWithRetries_shape in Hrun as (_ & _ & seg & Hseg & _ & Hsh).
    rewrite Hseg in Htr. apply app_inv_head in Htr.
    destruct out as [t|e].
    + destruct Hsh as (pre0 & m & -> & Hpre).
      destruct (success_is_last _ _ _ _ _ Hpre Htr Hev) as [-> ->]. eauto.
    + by destruct (no_success_in _ _ _ _ Hsh Htr).
  - intros w1 t H1. unfold generateWithRetries in Hrun.
    rewrite models_loop_step, H1 in Hrun. injection Hrun as <- <-.
    apply attempt_loop_shape in H1 as (_ & _ & seg & Hseg & Hon & _). eauto.
Qed.

Lemma C3_retriable_failures_exhaust_both_models_witness :
  exists w' errs1 errs2,
    generateWithRetries Examples.busy_env "gemini-1.5-flash" "q" 4 Examples.empty_world =
      (w', Thrown (last_error None (errs1 ++ errs2))) /\
    length errs1 = 4%nat /\ length errs2 = 4%nat.
Proof.
  destruct (C3_retriable_failures_exhaust_both_models Examples.busy_env
              "gemini-1.5-flash" "q" 4%nat Examples.empty_world)
    as (w' & errs1 & errs2 & Hrun & H1 & H2 & _).
  - intros t m p. exists Examples.busy. split; reflexivity.
  - exists w', errs1, errs2. repeat split; assumption.
Defined.

Lemma C4_non_retriable_goes_to_fallback_success_returns_witness :
  let run := generateWithRetries Examples.fallback_env "gemini-1.5-flash" "q" 4
               Examples.empty_world in
  snd run = Returned "answer" /\
  exists rest,
    trace (fst run) =
      [] ++ EvGenerate "gemini-1.5-flash" "q" (GenError Examples.bad_key)
         :: EvGenerate "gemini-1.5-flash-8b" "q" (GenText "answer") :: rest.
Proof.
  intros run.
  destruct (C4_non_retriable_goes_to_fallback_success_returns Examples.fallback_env
              "gemini-1.5-flash" "q" 4%nat Examples.empty_world (fst run) (snd run)
              (surjective_pairing run)) as (Hfirst & _ & _).
  split; [reflexivity|].
  destruct (Hfirst Examples.bad_key ltac:(lia) eq_refl eq_refl) as (rest & Hrest & _).
  exists rest. exact Hrest.
Defined.

End GenerationFacts.

(** ** Theorems: the embedding client *)

Module EmbeddingFacts.
Import Runtime Server Traces.

Lemma embedTexts_run env texts w :
  embedTexts env texts w =
    (log_event (EvEmbed texts) w, embedding_result (jina_post env (time w) texts)).
Proof. reflexivity. Qed.

Lemma embedBatch_run env texts w :
  Ingest.embedBatch env texts w =
    (log_event (EvEmbed texts) w, embedding_result (jina_post env (time w) texts)).
Proof. reflexivity. Qed.

Lemma map_outcome_embedding items :
  Forall (fun d => d <> JNull) items ->
  map_outcome (fun d => get_member (Some d) "embedding") items =
    Returned (map embedding_of items).
Proof.
  induction 1 as [|d items Hd _ IH]; cbn [map_outcome map]; [done|].
  rewrite IH. by destruct d.
Qed.

Lemma map_outcome_null items :
  In JNull items ->
  exists e, map_outcome (fun d => get_member (Some d) "embedding") items = Thrown e.
Proof.
  induction items as [|d items IH]; intros Hin; [done|]. cbn [map_outcome].
  destruct (get_member (Some d) "embedding") as [v|e] eqn:Hd; [|eauto].
  destruct Hin as [->|Hin]; [discriminate|].
  destruct (IH Hin) as (e & ->). eauto.
Qed.

Lemma embeddings_of_response_data resp items :
  data_array resp = Some items ->
  embeddings_of_response resp =
    map_outcome (fun d => get_member (Some d) "embedding") items.
Proof.
  unfold data_array, embeddings_of_response, get_member.
  destruct (http_data resp) as [[| | | | |fields]|]; try discriminate.
  destruct (obj_get "data" fields) as [[| | | |items'|]|]; try discriminate.
  by intros [= ->].
Qed.

Lemma embeddings_of_response_malformed resp :
  data_array resp = None -> exists e, embeddings_of_response resp = Thrown e.
Proof.
  unfold data_array, embeddings_of_response, get_member.
  destruct (http_data resp) as [[| | | | |fields]|]; try (intros _; eauto; fail).
  destruct (obj_get "data" fields) as [[| | | |items'|]|]; try (intros _; eauto; fail).
  discriminate.
Qed.

(** C6 as stated: a result array shorter than the input list is an
    error. The service below answers 200 with one embedding for two
    texts, and both clients return that one vector. *)
Lemma C6_short_result_array_is_returned :
  snd (embedTexts Examples.short_env ["a"; "b"] Examples.empty_world) =
    Returned [Some (JArr [JNum 1; JNum 2])] /\
  snd (Ingest.embedBatch Examples.short_env ["a"; "b"] Examples.empty_world) =
    Returned [Some (JArr [JNum 1; JNum 2])].
Proof. split; reflexivity. Qed.

(** C6 (amended). [embedTexts] and [embedBatch] make exactly one call,
    with no retry, and their result is a function of its response alone:
    no response or a status outside 2xx throws; a 2xx body without an
    array under [data], or with a [null] entry in it, throws; otherwise the
    result is the [embedding] of every entry of that array, in the order
    of the response, so it has one vector per input exactly when the
    service returned one entry per input. The length of the result is not
    compared with the number of inputs. *)
Theorem C6_embedding_client_follows_response env texts w :
  let r := jina_post env (time w) texts in
  embedTexts env texts w = (log_event (EvEmbed texts) w, embedding_result r) /\
  Ingest.embedBatch env texts w = embedTexts env texts w /\
  (forall e, r = HttpFailure e -> embedding_result r = Thrown (Some e)) /\
  (forall resp, r = HttpResponse resp -> is_2xx (http_status resp) = false ->
     exists e, embedding_result r = Thrown (Some e) /\
               err_response_status e = Some (http_status resp)) /\
  (forall resp, r = HttpResponse resp -> is_2xx (http_status resp) = true ->
     data_array resp = None -> exists e, embedding_result r = Thrown e) /\
  (forall resp items, r = HttpResponse resp -> is_2xx (http_status resp) = true ->
     data_array resp = Some items -> In JNull items ->
     exists e, embedding_result r = Thrown e) /\
  (forall resp items, r = HttpResponse resp -> is_2xx (http_status resp) = true ->
     data_array resp = Some items -> Forall (fun d => d <> JNull) items ->
     embedding_result r = Returned (map embedding_of items) /\
     length (map embedding_of items) = length items /\
     (length items = length texts -> length (map embedding_of items) = length texts)).
Proof.
  intros r. split; [reflexivity|]. split; [reflexivity|].
  unfold embedding_result, axios_result, is_2xx.
  split; [by intros e ->|].
  split; [intros resp -> Hst; rewrite Hst; eauto|].
  split; [intros resp -> Hst Hd; rewrite Hst; by apply embeddings_of_response_malformed|].
  split.
  - intros resp items -> Hst Hd Hin. rewrite Hst, (embeddings_of_response_data _ _ Hd).
    by apply map_outcome_null.
  - intros resp items -> Hst Hd Hnn. rewrite Hst, (embeddings_of_response_data _ _ Hd).
    rewrite length_map. split; [by apply map_outcome_embedding | done].
Qed.

End EmbeddingFacts.

(** ** Theorems: the chat handler *)

Module ChatFacts.
Import Runtime Server Traces.

Section WithEnv.
Variable env : Env.

Lemma pushHistory_run sid r c w :
  pushHistory env sid r c w =
  let key := session_key sid in
  let w1 := log_event (EvRedisGet key) w in
  match redis_fault env (time w) with
  | Some e => (w1, Thrown (Some e))
  | None =>
      let h := history_of w sid ++
               [{| role := r; content := c; ts := date_now env (S (time w)) |}] in
      let w2 := log_event (EvRedisSet key h) w1 in
      match redis_fault env (S (time w)) with
      | Some e => (w2, Thrown (Some e))
      | None => (set_session key h w2, Returned tt)
      end
  end.
Proof.
  unfold pushHistory, getHistory, mbind, M_bind, get_time, emit, throw. cbn.
  destruct (redis_fault env (time w)); cbv beta iota; [reflexivity|].
  rewrite GenerationFacts.time_log_event.
  destruct (redis_fault env (S (time w))); reflexivity.
Qed.

Lemma history_of_set_session sid h w :
  history_of (set_session (session_key sid) h w) sid = h.
Proof. unfold history_of, set_session. simpl. by rewrite lookup_insert_eq. Qed.

(** What a history write does: it adds the entry, or leaves the store as
    it was when it fails; it calls nothing but the store. *)
Lemma pushHistory_facts sid r c w w' out :
  pushHistory env sid r c w = (w', out) ->
  collection w' = collection w /\
  exists seg, trace w' = trace w ++ seg /\ Forall store_event seg /\
    match out with
    | Returned _ =>
        exists t, let h := history_of w sid ++ [{| role := r; content := c; ts := t |}] in
          history_of w' sid = h /\
          seg = [EvRedisGet (session_key sid); EvRedisSet (session_key sid) h]
    | Thrown _ => sessions w' = sessions w
    end.
Proof.
  rewrite pushHistory_run. cbv zeta.
  destruct (redis_fault env (time w)).
  { intros [= <- <-]. split; [done|]. eexists. split; [reflexivity|].
    split; [by repeat constructor | done]. }
  destruct (redis_fault env (S (time w))); intros [= <- <-]; (split; [done|]);
    eexists; (split; [cbn [trace log_event set_session]; by rewrite <- app_assoc|]);
    (split; [by repeat constructor|]); [done|].
  eexists. split; [apply history_of_set_session | reflexivity].
Qed.

Lemma retrieve_run q k w :
  retrieve env q k w =
  let w1 := log_event (EvEmbed [q]) w in
  match embedding_result (jina_post env (time w) [q]) with
  | Thrown e => (w1, Thrown e)
  | Returned vectors =>
      let qvec := match vectors with v :: _ => v | [] => None end in
      let w2 := log_event (EvSearch qvec k) w1 in
      match qdrant_search env (S (time w)) qvec k with
      | SearchError e => (w2, Thrown (Some e))
      | SearchHits hits => (w2, Returned (map result_of_hit hits))
      end
  end.
Proof.
  unfold retrieve, embedTexts, mbind, M_bind, get_time, emit, throw, lift_outcome.
  cbv beta iota zeta.
  destruct (embedding_result _); [|reflexivity].
  rewrite GenerationFacts.time_log_event.
  destruct (qdrant_search _ _ _ _); reflexivity.
Qed.

(** Retrieval starts with the embedding of the query and touches neither
    the session store nor the generation service. *)
Lemma retrieve_facts q k w w' out :
  retrieve env q k w = (w', out) ->
  sessions w' = sessions w /\ collection w' = collection w /\
  exists rest, trace w' = trace w ++ EvEmbed [q] :: rest /\
    Forall (fun ev => match ev with EvSearch _ _ => True | _ => False end) rest.
Proof.
  rewrite retrieve_run. cbv zeta.
  destruct (embedding_result _).
  - destruct (qdrant_search _ _ _ _); intros [= <- <-]; (split; [done|]); (split; [done|]);
      eexists; (split; [cbn [trace log_event]; by rewrite <- app_assoc|]);
      by repeat constructor.
  - intros [= <- <-]. split; [done|]. split; [done|]. exists []. by split.
Qed.

(** The [try] block on an accepted string, as a cascade of its steps. *)
Lemma chat_try_run req message w :
  req_message req = MsgString message -> Js.all_white_space message = false ->
  chat_try env req w =
  let sid := req_sessionId req in
  match pushHistory env sid "user" message w with
  | (w1, Thrown e) => (w1, Thrown e)
  | (w1, Returned _) =>
      match retrieve env message 5 w1 with
      | (w2, Thrown e) => (w2, Thrown e)
      | (w2, Returned []) =>
          match pushHistory env sid "assistant" info_text w2 with
          | (w3, Thrown e) => (w3, Thrown e)
          | (w3, Returned _) => (w3, Returned (reply_response info_text [] sid))
          end
      | (w2, Returned (d :: ds)) =>
          match generateWithRetries env (GEMINI_MODEL env)
                  (buildRagPrompt env message (d :: ds)) 4 w2 with
          | (w3, Thrown e) => (w3, Thrown e)
          | (w3, Returned reply) =>
              match pushHistory env sid "assistant" reply w3 with
              | (w4, Thrown e) => (w4, Thrown e)
              | (w4, Returned _) =>
                  (w4, Returned (reply_response reply
                                   (Js.mapi source_of 0%nat (d :: ds)) sid))
              end
          end
      end
  end.
Proof.
  intros Hm Hw. unfold chat_try. rewrite Hm, Hw. unfold mbind, M_bind. cbv zeta.
  destruct (pushHistory env _ "user" message w) as [w1 [[]|e]]; [|reflexivity].
  destruct (retrieve env message 5 w1) as [w2 [[|d ds]|e]]; [| |reflexivity].
  - destruct (pushHistory env _ "assistant" info_text w2) as [w3 [[]|e]]; reflexivity.
  - destruct (generateWithRetries env _ _ 4 w2) as [w3 [reply|e]]; [|reflexivity].
    destruct (pushHistory env _ "assistant" reply w3) as [w4 [[]|e]]; reflexivity.
Qed.

Lemma chat_run req w :
  chat env req w =
  match chat_try env req w with
  | (w1, Returned resp) => (w1, Returned resp)
  | (w1, Thrown e) => (log_event (EvLog e) w1, Returned (friendly_response req))
  end.
Proof.
  unfold chat, try_catch, chat_catch, mbind, M_bind, emit.
  by destruct (chat_try env req w) as [w1 [resp|e]].
Qed.

Lemma history_of_sessions w w' sid :
  sessions w' = sessions w -> history_of w' sid = history_of w sid.
Proof. unfold history_of. by intros ->. Qed.

Lemma first_embed_split l1 x l2 pre q post :
  Forall not_embed l1 -> Forall not_embed l2 ->
  l1 ++ EvEmbed x :: l2 = pre ++ EvEmbed q :: post ->
  pre = l1 /\ q = x /\ post = l2.
Proof.
  intros H1 H2. revert pre. induction l1 as [|a l1 IH]; intros pre Heq.
  - destruct pre as [|y pre]; simpl in Heq; injection Heq as Hy Heq.
    + by subst.
    + subst l2. rewrite List.Forall_forall in H2.
      destruct (H2 (EvEmbed q)). apply in_or_app. right. by left.
  - inversion H1 as [|? ? Ha Hl1]; subst.
    destruct pre as [|y pre]; simpl in Heq; injection Heq as Hy Heq.
    + by subst a.
    + destruct (IH Hl1 pre Heq) as (-> & -> & ->). by subst.
Qed.

Lemma no_embed_split seg pre q post :
  Forall not_embed seg -> seg <> pre ++ EvEmbed q :: post.
Proof.
  intros H ->. rewrite List.Forall_forall in H.
  destruct (H (EvEmbed q)). apply in_or_app. right. by left.
Qed.

(** The three ways the [try] block can go on an accepted string: the
    store refuses the user entry, and nothing else is called; or the user
    entry is written, retrieval begins, and a later step fails; or the user
    entry is written, retrieval succeeds and a reply is recorded after
    it. *)
Lemma chat_try_paths req message w w1 out1 :
  req_message req = MsgString message -> Js.all_white_space message = false ->
  chat_try env req w = (w1, out1) ->
  let sid := req_sessionId req in
  let key := session_key sid in
  let h0 := history_of w sid in
  (exists seg e, out1 = Thrown e /\ trace w1 = trace w ++ seg /\
     Forall store_event seg /\ history_of w1 sid = h0) \/
  (exists t rest,
     trace w1 = trace w ++ [EvRedisGet key; EvRedisSet key (h0 ++ [user_entry message t])]
                        ++ EvEmbed [message] :: rest /\
     Forall not_embed rest /\
     ((exists e, out1 = Thrown e /\ history_of w1 sid = h0 ++ [user_entry message t]) \/
      (exists reply sources t2,
         out1 = Returned (reply_response reply sources sid) /\
         history_of w1 sid =
           h0 ++ [user_entry message t; assistant_entry reply t2]))).
Proof.
  intros Hm Hw. rewrite (chat_try_run req message w Hm Hw). cbv zeta.
  destruct (pushHistory env _ "user" message w) as [w1' out] eqn:Hp1.
  apply pushHistory_facts in Hp1 as (_ & seg1 & Htr1 & Hst1 & Hout1).
  destruct out as [[]|e].
  2:{ intros [= <- <-]. left. exists seg1, e. repeat split; try done.
      by apply history_of_sessions. }
  destruct Hout1 as (t & Hh1 & ->). cbv zeta in Hh1.
  destruct (retrieve env message 5 w1') as [w2 out2] eqn:Hr.
  apply retrieve_facts in Hr as (Hs2 & _ & rest2 & Htr2 & Hsearch).
  assert (Forall not_embed rest2) as Hne2
    by (eapply List.Forall_impl; [|exact Hsearch]; by intros []).
  assert (history_of w2 (req_sessionId req) =
          history_of w (req_sessionId req) ++ [user_entry message t]) as Hh2
    by (by rewrite (history_of_sessions _ _ _ Hs2)).
  destruct out2 as [[|d ds]|e].
  - destruct (pushHistory env _ "assistant" info_text w2) as [w3 out3] eqn:Hp3.
    apply pushHistory_facts in Hp3 as (_ & seg3 & Htr3 & Hst3 & Hout3).
    assert (Forall not_embed seg3) as Hne3
      by (eapply List.Forall_impl; [|exact Hst3]; by intros []).
    intros Hrun. right. exists t, (rest2 ++ seg3).
    assert (w1 = w3) as -> by (destruct out3 as [[]|?]; by injection Hrun as <- _).
    split; [rewrite Htr3, Htr2, Htr1; by rewrite <- !app_assoc|].
    split; [by apply List.Forall_app|].
    destruct out3 as [[]|e]; injection Hrun as <-.
    + right. destruct Hout3 as (t2 & Hh3 & _). cbv zeta in Hh3.
      exists info_text, [], t2. split; [done|]. rewrite Hh3, Hh2. by rewrite <- app_assoc.
    + left. exists e. split; [done|]. by rewrite (history_of_sessions _ _ _ Hout3).
  - destruct (generateWithRetries env _ _ 4 w2) as [w3 out3] eqn:Hg.
    apply GenerationFacts.generateWithRetries_shape in Hg
      as (Hs3 & _ & seg3 & Htr3 & Hgen3 & _).
    assert (Forall not_embed seg3) as Hne3
      by (eapply List.Forall_impl; [|exact Hgen3]; by intros []).
    destruct out3 as [reply|e].
    2:{ intros [= <- <-]. right. exists t, (rest2 ++ seg3).
        split; [rewrite Htr3, Htr2, Htr1; by rewrite <- !app_assoc|].
        split; [by apply List.Forall_app|].
        left. exists e. split; [done|]. by rewrite (history_of_sessions _ _ _ Hs3). }
    destruct (pushHistory env _ "assistant" reply w3) as [w4 out4] eqn:Hp4.
    apply pushHistory_facts in Hp4 as (_ & seg4 & Htr4 & Hst4 & Hout4).
    assert (Forall not_embed seg4) as Hne4
      by (eapply List.Forall_impl; [|exact Hst4]; by intros []).
    intros Hrun. right. exists t, (rest2 ++ seg3 ++ seg4).
    assert (w1 = w4) as -> by (destruct out4 as [[]|?]; by injection Hrun as <- _).
    split; [rewrite Htr4, Htr3, Htr2, Htr1; by rewrite <- !app_assoc|].
    split; [apply List.Forall_app; split; [done | by apply List.Forall_app]|].
    destruct out4 as [[]|e]; injection Hrun as <-.
    + right. destruct Hout4 as (t2 & Hh4 & _). cbv zeta in Hh4.
      exists reply, (Js.mapi source_of 0%nat (d :: ds)), t2. split; [done|].
      rewrite Hh4, (history_of_sessions _ _ _ Hs3), Hh2. by rewrite <- app_assoc.
    + left. exists e. split; [done|].
      by rewrite (history_of_sessions _ _ _ Hout4), (history_of_sessions _ _ _ Hs3).
  - intros [= <- <-]. right. exists t, rest2.
    split; [rewrite Htr2, Htr1; by rewrite <- !app_assoc|].
    split; [done|]. left. by exists e.
Qed.

Lemma chat_try_rejected req w :
  accepted (req_message req) = false ->
  chat_try env req w = (w, Returned bad_request).
Proof.
  unfold accepted, chat_try. destruct (req_message req) as [|s|[]]; try done.
  intros Hs. apply negb_false_iff in Hs. by rewrite Hs.
Qed.

Lemma chat_paths req w w' out :
  chat env req w = (w', out) ->
  rejected_path env req w w' out \/ failed_early_path env req w w' out \/
  failed_late_path env req w w' out \/ replied_path env req w w' out.
Proof.
  rewrite chat_run. destruct (accepted (req_message req)) eqn:Hacc.
  2:{ rewrite (chat_try_rejected req w Hacc). intros [= <- <-]. left.
      repeat split; try done. by apply chat_try_rejected. }
  destruct (req_message req) as [|message|[]] eqn:Hm; try discriminate.
  - apply negb_true_iff in Hacc.
    destruct (chat_try env req w) as [w1 out1] eqn:Htry.
    destruct (chat_try_paths req message w w1 out1 Hm Hacc Htry)
      as [(seg & e & -> & Htr & Hst & Hh)
         |(t & rest & Htr & Hne & [(e & -> & Hh)|(reply & sources & t2 & -> & Hh)])].
    + intros [= <- <-]. right. left. exists w1, e, (seg ++ [EvLog e]).
      repeat split; try done.
      * cbn [trace log_event]. by rewrite Htr, <- app_assoc.
      * apply List.Forall_app. split; [|by repeat constructor].
        eapply List.Forall_impl; [|exact Hst]. by intros [].
    + intros [= <- <-]. right. right. left.
      exists w1, e, message, t, (rest ++ [EvLog e]). repeat split; try done.
      * cbn [trace log_event]. rewrite Htr. by rewrite <- !app_assoc.
      * apply List.Forall_app. split; [done | by repeat constructor].
    + intros [= <- <-]. right. right. right.
      by exists message, t, rest, reply, sources, t2.
  - assert (chat_try env req w =
            (w, Thrown (Some (type_error "message.trim is not a function")))) as Htry
      by (unfold chat_try; by rewrite Hm).
    rewrite Htry. intros [= <- <-]. right. left. eexists w, _, [_].
    repeat split; try done. by repeat constructor.
Qed.

End WithEnv.

Lemma chat_try_embedding_fails env req message w w1 e :
  req_message req = MsgString message -> Js.all_white_space message = false ->
  pushHistory env (req_sessionId req) "user" message w = (w1, Returned tt) ->
  embedding_result (jina_post env (time w1) [message]) = Thrown e ->
  chat_try env req w = (log_event (EvEmbed [message]) w1, Thrown e).
Proof.
  intros Hm Hw Hp He. rewrite (chat_try_run env req message w Hm Hw). cbv zeta.
  by rewrite Hp, retrieve_run, He.
Qed.

Lemma chat_try_search_fails env req message w w1 vectors e :
  req_message req = MsgString message -> Js.all_white_space message = false ->
  pushHistory env (req_sessionId req) "user" message w = (w1, Returned tt) ->
  embedding_result (jina_post env (time w1) [message]) = Returned vectors ->
  qdrant_search env (S (time w1)) (match vectors with v :: _ => v | [] => None end) 5
    = SearchError e ->
  exists w2, chat_try env req w = (w2, Thrown (Some e)).
Proof.
  intros Hm Hw Hp He Hs. rewrite (chat_try_run env req message w Hm Hw). cbv zeta.
  rewrite Hp, retrieve_run, He. cbv zeta. rewrite Hs. eauto.
Qed.

Lemma chat_try_generation_fails env req message w w1 w2 d ds w3 e :
  req_message req = MsgString message -> Js.all_white_space message = false ->
  pushHistory env (req_sessionId req) "user" message w = (w1, Returned tt) ->
  retrieve env message 5 w1 = (w2, Returned (d :: ds)) ->
  generateWithRetries env (GEMINI_MODEL env) (buildRagPrompt env message (d :: ds)) 4 w2
    = (w3, Thrown e) ->
  chat_try env req w = (w3, Thrown e).
Proof.
  intros Hm Hw Hp Hr Hg. rewrite (chat_try_run env req message w Hm Hw). cbv zeta.
  by rewrite Hp, Hr, Hg.
Qed.

Lemma accepted_string req message :
  accepted (req_message req) = true -> req_message req = MsgString message ->
  Js.all_white_space message = false.
Proof. intros Ha Hm. rewrite Hm in Ha. by apply negb_true_iff in Ha. Qed.

(** A request answered from two hits: the reply is generated, the
    sources are labelled in the order of the hits, and the history holds
    the question and the answer. *)
Example chat_answers_from_two_hits :
  let run := chat Examples.answering_env Examples.hello Examples.empty_world in
  snd run = Returned
    (reply_response "answer"
       [ {| source_id := "S1"; source_title := "A"; source_url := "https://x/1";
            source_score := 81 |};
         {| source_id := "S2"; source_title := ""; source_url := "";
            source_score := 77 |} ] "s1") /\
  map content (history_of (fst run) "s1") = ["hi"; "answer"] /\
  map role (history_of (fst run) "s1") = ["user"; "assistant"].
Proof. repeat split; vm_compute; reflexivity. Qed.

(** C7 as stated: whenever retrieval returns no result, the reply is
    the informational text. With a session store that fails after the user
    entry has been written, retrieval returns no result, the write of the
    informational text to the history throws, and the reply is the friendly
    text of the error path. *)
Lemma C7_unrecorded_reply_is_the_friendly_text :
  let env := Examples.fading_store_env in
  let run := chat env Examples.hello Examples.empty_world in
  let pushed := pushHistory env "s1" "user" "hi" Examples.empty_world in
  snd pushed = Returned tt /\
  snd (retrieve env "hi" 5 (fst pushed)) = Returned [] /\
  snd run = Returned (reply_response friendly_text [] "s1") /\
  friendly_text <> info_text /\
  map content (history_of (fst run) "s1") = ["hi"].
Proof. repeat split; try (vm_compute; reflexivity). discriminate. Qed.

(** C7 (amended). When the retrieval step of an accepted request returns
    no result, the handler answers with status 200 and an empty list of
    sources, and no call to the generation service is made; the reply is
    the informational text provided the write of that text to the history
    succeeds; when that write fails, the reply is the friendly text of the
    error path. *)
Theorem C7_empty_retrieval_replies_without_generation env req message w w1 w2 :
  req_message req = MsgString message ->
  Js.all_white_space message = false ->
  pushHistory env (req_sessionId req) "user" message w = (w1, Returned tt) ->
  retrieve env message 5 w1 = (w2, Returned []) ->
  exists w' reply seg,
    chat env req w = (w', Returned (reply_response reply [] (req_sessionId req))) /\
    trace w' = trace w ++ seg /\
    Forall (fun ev => ~ generation_event ev) seg /\
    (forall w3, pushHistory env (req_sessionId req) "assistant" info_text w2
                = (w3, Returned tt) ->
       reply = info_text /\ w' = w3) /\
    (forall w3 e, pushHistory env (req_sessionId req) "assistant" info_text w2
                  = (w3, Thrown e) ->
       reply = friendly_text).
Proof.
  intros Hm Hw Hp1 Hr. rewrite chat_run, (chat_try_run env req message w Hm Hw).
  cbv zeta. rewrite Hp1, Hr.
  apply pushHistory_facts in Hp1 as (_ & seg1 & Htr1 & Hst1 & _).
  apply retrieve_facts in Hr as (_ & _ & rest2 & Htr2 & Hsearch).
  destruct (pushHistory env _ "assistant" info_text w2) as [w3 out3] eqn:Hp3.
  pose proof Hp3 as Hp3'.
  apply pushHistory_facts in Hp3' as (_ & seg3 & Htr3 & Hst3 & _).
  assert (Forall (fun ev => ~ generation_event ev) (seg1 ++ EvEmbed [message] :: rest2 ++ seg3))
    as Hquiet.
  { apply List.Forall_app. split.
    - eapply List.Forall_impl; [|exact Hst1]. intros []; simpl; tauto.
    - constructor; [simpl; tauto|]. apply List.Forall_app. split.
      + eapply List.Forall_impl; [|exact Hsearch]. intros []; simpl; tauto.
      + eapply List.Forall_impl; [|exact Hst3]. intros []; simpl; tauto. }
  destruct out3 as [[]|e].
  - exists w3, info_text, (seg1 ++ EvEmbed [message] :: rest2 ++ seg3).
    split; [done|]. split; [rewrite Htr3, Htr2, Htr1; by rewrite <- !app_assoc|].
    split; [done|]. split; [by intros ? [= <-] | by intros ? ? [=]].
  - exists (log_event (EvLog e) w3), friendly_text,
      ((seg1 ++ EvEmbed [message] :: rest2 ++ seg3) ++ [EvLog e]).
    split; [done|].
    split; [cbn [trace log_event]; rewrite Htr3, Htr2, Htr1;
            rewrite <- !app_assoc; cbn [app]; by rewrite <- ?app_assoc|].
    split; [apply List.Forall_app; split; [done | repeat constructor; simpl; tauto]|].
    split; [by intros ? [=] | done].
Qed.

Lemma C7_empty_retrieval_replies_without_generation_witness :
  exists w' seg,
    chat Examples.quiet_env Examples.hello Examples.empty_world =
      (w', Returned (reply_response info_text [] "s1")) /\
    trace w' = [] ++ seg /\ Forall (fun ev => ~ generation_event ev) seg.
Proof.
  pose (w1 := fst (pushHistory Examples.quiet_env "s1" "user" "hi" Examples.empty_world)).
  pose (w2 := fst (retrieve Examples.quiet_env "hi" 5 w1)).
  pose (w3 := fst (pushHistory Examples.quiet_env "s1" "assistant" info_text w2)).
  destruct (C7_empty_retrieval_replies_without_generation Examples.quiet_env
              Examples.hello "hi" Examples.empty_world w1 w2
              eq_refl eq_refl eq_refl eq_refl)
    as (w' & reply & seg & Hchat & Htr & Hq & Hinfo & _).
  destruct (Hinfo w3 eq_refl) as [-> _].
  exists w', seg. repeat split; assumption.
Defined.

(** C8. For a request whose message passes the check, the handler always
    answers, with status 200; whenever its [try] block throws, the answer
    is the friendly reply with an empty list of sources, the error being
    logged; this is so in particular when the embedding call fails, when
    the search fails and when generation gives up. *)
Theorem C8_errors_become_the_friendly_reply env req w :
  accepted (req_message req) = true ->
  exists w' resp,
    chat env req w = (w', Returned resp) /\
    status resp = 200 /\
    (forall w1 e, chat_try env req w = (w1, Thrown e) ->
       w' = log_event (EvLog e) w1 /\ resp = friendly_response req /\
       body resp = ReplyBody friendly_text [] (req_sessionId req)) /\
    (forall message w1 e, req_message req = MsgString message ->
       pushHistory env (req_sessionId req) "user" message w = (w1, Returned tt) ->
       embedding_result (jina_post env (time w1) [message]) = Thrown e ->
       resp = friendly_response req) /\
    (forall message w1 vectors e, req_message req = MsgString message ->
       pushHistory env (req_sessionId req) "user" message w = (w1, Returned tt) ->
       embedding_result (jina_post env (time w1) [message]) = Returned vectors ->
       qdrant_search env (S (time w1))
         (match vectors with v :: _ => v | [] => None end) 5 = SearchError e ->
       resp = friendly_response req) /\
    (forall message w1 w2 d ds w3 e, req_message req = MsgString message ->
       pushHistory env (req_sessionId req) "user" message w = (w1, Returned tt) ->
       retrieve env message 5 w1 = (w2, Returned (d :: ds)) ->
       generateWithRetries env (GEMINI_MODEL env)
         (buildRagPrompt env message (d :: ds)) 4 w2 = (w3, Thrown e) ->
       resp = friendly_response req).
Proof.
  intros Hacc. rewrite chat_run.
  destruct (chat_try env req w) as [w1 [resp|e]] eqn:Htry.
  - exists w1, resp. split; [done|].
    assert (status resp = 200) as Hst.
    { pose proof (chat_run env req w) as Hchat. rewrite Htry in Hchat.
      apply chat_paths in Hchat
        as [(Hrej & _)|[(? & ? & ? & Ht & _)|[(? & ? & ? & ? & ? & Ht & _)|
            (? & ? & ? & ? & ? & ? & Ht & _)]]]; try congruence.
      rewrite Htry in Ht. by injection Ht as ->. }
    split; [done|]. split; [intros ? ? [=]|].
    split; [|split].
    + intros message w1' e Hm Hp He.
      pose proof (chat_try_embedding_fails env req message w w1' e Hm
                    (accepted_string req message Hacc Hm) Hp He). congruence.
    + intros message w1' vectors e Hm Hp He Hs.
      destruct (chat_try_search_fails env req message w w1' vectors e Hm
                  (accepted_string req message Hacc Hm) Hp He Hs). congruence.
    + intros message w1' w2 d ds w3 e Hm Hp Hr Hg.
      pose proof (chat_try_generation_fails env req message w w1' w2 d ds w3 e Hm
                    (accepted_string req message Hacc Hm) Hp Hr Hg). congruence.
  - exists (log_event (EvLog e) w1), (friendly_response req).
    split; [done|]. split; [done|]. split; [by intros ? ? [= <- <-]|]. done.
Qed.

Lemma C8_errors_become_the_friendly_reply_witness :
  exists w',
    chat Examples.busy_env Examples.hello Examples.empty_world =
      (w', Returned (friendly_response Examples.hello)).
Proof.
  destruct (C8_errors_become_the_friendly_reply Examples.busy_env Examples.hello
              Examples.empty_world eq_refl)
    as (w' & resp & Hchat & _ & Hcatch & _).
  pose (run := chat_try Examples.busy_env Examples.hello Examples.empty_world).
  destruct (Hcatch (fst run) (Some Examples.busy)) as (_ & -> & _);
    [vm_compute; reflexivity|].
  by exists w'.
Defined.

(** C10 as stated: whenever the handler takes the error path, the
    history already holds the user's message. With the session store
    unreachable the handler takes the error path at its first step, and
    the history holds nothing. *)
Lemma C10_error_path_without_user_entry :
  let run := chat Examples.no_store_env Examples.hello Examples.empty_world in
  snd run = Returned (friendly_response Examples.hello) /\
  history_of (fst run) "s1" = [] /\
  Forall not_embed (trace (fst run)).
Proof. repeat split; vm_compute; repeat constructor. Qed.

(** C10 (amended). Retrieval begins only after the user entry has been
    written: whatever precedes the embedding call in the trace of a request
    is the read and the write of the history with that entry appended. When
    the [try] block then throws, the client gets the friendly reply and the
    history ends with that unanswered user entry; when it throws before
    retrieval began, the history is as it was. When the [try] block returns
    with status 200 (empty retrieval or generated answer), the history ends
    with the user entry followed by the assistant's reply. *)
Theorem C10_history_on_every_path env req w w' out :
  chat env req w = (w', out) ->
  let sid := req_sessionId req in
  let key := session_key sid in
  let h0 := history_of w sid in
  (forall pre q post, trace w' = trace w ++ pre ++ EvEmbed q :: post ->
     exists message t, req_message req = MsgString message /\ q = [message] /\
       pre = [EvRedisGet key; EvRedisSet key (h0 ++ [user_entry message t])]) /\
  (forall w1 e, chat_try env req w = (w1, Thrown e) ->
     out = Returned (friendly_response req) /\
     ((exists pre q post, trace w' = trace w ++ pre ++ EvEmbed q :: post) ->
        exists message t, req_message req = MsgString message /\
          history_of w' sid = h0 ++ [user_entry message t]) /\
     ((forall pre q post, trace w' <> trace w ++ pre ++ EvEmbed q :: post) ->
        history_of w' sid = h0)) /\
  (forall w1 resp, chat_try env req w = (w1, Returned resp) -> status resp = 200 ->
     exists message reply sources t1 t2,
       req_message req = MsgString message /\
       w' = w1 /\ out = Returned resp /\
       resp = reply_response reply sources sid /\
       history_of w' sid = h0 ++ [user_entry message t1; assistant_entry reply t2]).
Proof.
  intros Hchat sid key h0. apply chat_paths in Hchat.
  destruct Hchat as [(Hrej & -> & -> & Htry)|[(w1 & e & seg & Htry & -> & -> & Htr & Hne & Hh)|
    [(w1 & e & message & t & rest & Htry & -> & -> & Hm & Htr & Hne & Hh)|
     (message & t & rest & reply & sources & t2 & Htry & -> & Hm & Htr & Hne & Hh)]]].
  - split; [|split].
    + intros pre q post Heq. rewrite <- (app_nil_r (trace w)) in Heq at 1.
      apply app_inv_head in Heq. by destruct pre.
    + intros ? ? Ht. congruence.
    + intros ? ? Ht Hst. rewrite Htry in Ht. by injection Ht as _ <-.
  - split; [|split].
    + intros pre q post Heq. rewrite Htr in Heq. apply app_inv_head in Heq.
      by destruct (no_embed_split _ _ _ _ Hne Heq).
    + intros ? ? _. split; [done|]. split; [|done].
      intros (pre & q & post & Heq). rewrite Htr in Heq. apply app_inv_head in Heq.
      by destruct (no_embed_split _ _ _ _ Hne Heq).
    + intros ? ? Ht. congruence.
  - split; [|split].
    + intros pre q post Heq. rewrite Htr in Heq. apply app_inv_head in Heq.
      apply first_embed_split in Heq as (-> & -> & _); [eauto | | done].
      by repeat constructor.
    + intros ? ? _. split; [done|]. split; [eauto|].
      intros Hno. by destruct (Hno _ _ _ Htr).
    + intros ? ? Ht. congruence.
  - split; [|split].
    + intros pre q post Heq. rewrite Htr in Heq. apply app_inv_head in Heq.
      apply first_embed_split in Heq as (-> & -> & _); [eauto | | done].
      by repeat constructor.
    + intros ? ? Ht. congruence.
    + intros w1 resp Ht _. rewrite Htry in Ht. injection Ht as <- <-.
      by exists message, reply, sources, t, t2.
Qed.

Lemma C10_history_on_every_path_witness :
  let run := chat Examples.busy_env Examples.hello Examples.empty_world in
  snd run = Returned (friendly_response Examples.hello) /\
  exists message t, history_of (fst run) "s1" = [] ++ [user_entry message t].
Proof.
  intros run.
  destruct (C10_history_on_every_path Examples.busy_env Examples.hello
              Examples.empty_world (fst run) (snd run) (surjective_pairing run))
    as (_ & Herr & _).
  pose (failed := chat_try Examples.busy_env Examples.hello Examples.empty_world).
  destruct (Herr (fst failed) (Some Examples.busy)) as (Hout & Hbegan & _);
    [vm_compute; reflexivity|].
  split; [exact Hout|].
  destruct Hbegan as (message & t & _ & Hh); [|by exists message, t].
  exists [EvRedisGet "session:s1";
          EvRedisSet "session:s1" [user_entry "hi" 1]], ["hi"].
  eexists. vm_compute. reflexivity.
Defined.

End ChatFacts.

(** ** Theorems: the prompt *)

Module PromptFacts.
Import Runtime Server Traces.

Lemma mapi_length {A B} (f : A -> nat -> B) i0 xs :
  length (Js.mapi f i0 xs) = length xs.
Proof. revert i0. induction xs as [|x xs IH]; intros i0; simpl; [done | by rewrite IH]. Qed.

Lemma mapi_lookup {A B} (f : A -> nat -> B) i0 xs (k : nat) :
  Js.mapi f i0 xs !! k = (fun x => f x (i0 + k)%nat) <$> xs !! k.
Proof.
  revert i0 k. induction xs as [|x xs IH]; intros i0 [|k]; simpl; try done.
  - by rewrite Nat.add_0_r.
  - rewrite IH. by replace (S i0 + k)%nat with (i0 + S k)%nat by lia.
Qed.

Lemma prefix_append s t : String.prefix s (s +:+ t) = true.
Proof.
  induction s as [|c s IH]; simpl; [by destruct t|].
  destruct (ascii_dec c c); [done | congruence].
Qed.

(** C9 as stated: the blocks are followed by the instruction. In the
    prompt for one result the instruction is at offset 0, the block starts
    after it, and what follows the block is the line [Answer:] alone. *)
Lemma C9_instruction_precedes_the_blocks :
  let blocks := context_text Examples.quiet_env [Examples.sample_result] in
  let prompt := buildRagPrompt Examples.quiet_env "q" [Examples.sample_result] in
  blocks = "Source 1 (81): A" +:+ Js.nl +:+ "Stocks rose." +:+ Js.nl +:+ "URL: https://x/1" /\
  String.index 0 instruction prompt = Some 0%nat /\
  String.index 0 blocks prompt = Some 240%nat /\
  substring (240 + String.length blocks) 9 prompt = Js.nl +:+ Js.nl +:+ "Answer:" /\
  String.length prompt = (240 + String.length blocks + 9)%nat /\
  String.index 0 "ONLY" (substring 240 (String.length prompt) prompt) = None.
Proof. repeat split; vm_compute; reflexivity. Qed.

(** C9 (amended). [buildRagPrompt] is a function of the query and the
    results (and of the number formatting of the runtime): equal inputs
    give the same string. The prompt starts with the instruction to answer
    only from the provided context and to cite with [S1], [S2], ...; then
    come the question and one block per result, in input order, block [k]
    (from 0) being labelled [Source k+1] and holding the score of result
    [k] formatted by [toFixed(3)], its title, its text and its url; the
    blocks are joined by a rule and the prompt ends with [Answer:]. There
    are as many blocks as results, equal results giving equal blocks but
    for the label. The sources of the response carry the ids [S1], [S2],
    ... in the same order. *)
Theorem C9_prompt_layout env query contexts :
  (forall query' contexts', query' = query -> contexts' = contexts ->
     buildRagPrompt env query' contexts' = buildRagPrompt env query contexts) /\
  String.prefix instruction (buildRagPrompt env query contexts) = true /\
  buildRagPrompt env query contexts =
    instruction +:+ Js.nl +:+ Js.nl +:+ "Question: " +:+ query +:+ Js.nl +:+ Js.nl
    +:+ after_question env contexts /\
  context_text env contexts =
    String.concat context_separator (Js.mapi (source_block env) 0%nat contexts) /\
  length (Js.mapi (source_block env) 0%nat contexts) = length contexts /\
  (forall (k : nat) c, contexts !! k = Some c ->
     Js.mapi (source_block env) 0%nat contexts !! k =
       Some ("Source " +:+ pretty (k + 1)%nat +:+ " (" +:+ toFixed3 env (score c) +:+ "): "
             +:+ title c +:+ Js.nl +:+ text c +:+ Js.nl +:+ "URL: " +:+ url c)) /\
  (forall (k : nat) c, contexts !! k = Some c ->
     Js.mapi source_of 0%nat contexts !! k =
       Some {| source_id := "S" +:+ pretty (k + 1)%nat; source_title := title c;
               source_url := url c; source_score := score c |}).
Proof.
  split; [by intros ? ? -> ->|].
  split; [apply prefix_append|].
  split; [reflexivity|]. split; [reflexivity|].
  split; [apply mapi_length|].
  split; intros k c Hk; by rewrite mapi_lookup, Hk.
Qed.

End PromptFacts.

(** ** Theorems: point ids and upsert *)

Module IngestFacts.
Import Runtime Ingest Traces.

Lemma append_nil_l t : "" +:+ t = t.
Proof. reflexivity. Qed.

Lemma append_cons c s t : String c s +:+ t = String c (s +:+ t).
Proof. reflexivity. Qed.







Lemma put_points_dom pts w :
  dom (collection (put_points pts w)) =
  dom (collection w) ∪ list_to_set (map point_id pts).
Proof.
  unfold put_points. simpl. generalize (collection w).
  induction pts as [|p pts IH]; intros c; simpl.
  - by rewrite (right_id_L ∅ (∪)).
  - rewrite IH, dom_insert_L.
    by rewrite (comm_L (∪) {[point_id p]} (dom c)), (assoc_L (∪)).
Qed.

Lemma array_slice_length {A} (xs : list A) i n :
  length (array_slice xs i n) = Nat.min n (length xs - i).
Proof. unfold array_slice. rewrite length_firstn, length_skipn. lia. Qed.

Section WithEnv.
Variable env : Env.



End WithEnv.

Lemma jina_ok_embeddings texts :
  embedding_result (Examples.jina_ok texts) =
    Returned (map (fun _ => Some (JArr [JNum 1; JNum 2])) texts).
Proof.
  unfold embedding_result, embeddings_of_response. cbn.
  induction texts as [|t texts IH]; [reflexivity|].
  cbn [map map_outcome]. by rewrite IH.
Qed.

Lemma quiet_env_keeps_contract : services_keep_contract Examples.quiet_env.
Proof.
  split; [|done]. intros t texts. eexists. split; [apply jina_ok_embeddings|].
  by rewrite length_map.
Qed.










End IngestFacts.

(** ** Further theorems: the chunker and the cap on the text *)

Module ChunkerExtras.
Import Chunker ChunkerFacts Ingest.

(** Whatever the overlap, the cursor stays inside the text and a chunk
    ends [chunkSize] after its start or at the end of the text. *)
Lemma spans_bounds L C O M fuel i count sp :
  0 <= i -> spans_from fuel L C O M i count = Some sp ->
  Forall (fun se => 0 <= fst se /\ fst se < L /\ snd se = Z.min (fst se + C) L) sp.
Proof.
  revert i count sp. induction fuel as [|fuel IH]; intros i count sp Hi H;
    apply spans_from_inv in H as [[-> _]|(f & rest & Hf & HiL & Hc & -> & Hrest)];
    try (by constructor); try discriminate Hf.
  injection Hf as <-. constructor; [simpl; lia|].
  eapply IH; [|exact Hrest]. unfold next_cursor.
  destruct (Z.ltb_spec (Z.min (i + C) L - O) 0); lia.
Qed.

Lemma slice_span_substring text s e :
  0 <= s -> s <= e -> e <= Z.of_nat (String.length text) ->
  slice_span text (s, e) = substring (Z.to_nat s) (Z.to_nat (e - s)) text.
Proof.
  intros Hs Hse He. unfold slice_span, Js.slice. simpl.
  destruct (Z.ltb_spec s 0); [lia|]. destruct (Z.ltb_spec e 0); [lia|].
  f_equal; lia.
Qed.

(** X1. For every text and every choice of the three numbers, also an
    overlap that is negative or not below the chunk size, [chunkText]
    leaves its loop and returns at most [maxChunks] chunks; an empty text
    and a cap that is not positive give no chunk at all. *)
Theorem X1_chunkText_stops_within_the_cap text C O M :
  (exists chunks, chunkText text C O M = Some chunks /\
                  Z.of_nat (length chunks) <= Z.max M 0) /\
  chunkText "" C O M = Some [] /\
  (M <= 0 -> chunkText text C O M = Some []).
Proof.
  split; [apply chunkText_total|]. split.
  - unfold chunkText. by destruct (Z.to_nat M).
  - intros HM. unfold chunkText. replace (Z.to_nat M) with 0%nat by lia.
    cbn [chunk_loop length]. destruct (Z.ltb_spec (Z.of_nat 0) M); [lia|].
    by rewrite andb_false_r.
Qed.

(** X2. With a chunk size that is not negative, whatever the overlap,
    every chunk returned is the piece of the text between a start offset
    inside the text and [min (start + chunkSize) length]: it is never
    longer than [chunkSize]. *)
Theorem X2_chunks_are_pieces_no_longer_than_chunkSize text C O M :
  0 <= C ->
  exists spans,
    chunkText text C O M = Some (map (slice_span text) spans) /\
    Forall (fun se =>
      0 <= fst se /\ fst se < Z.of_nat (String.length text) /\
      snd se = Z.min (fst se + C) (Z.of_nat (String.length text)) /\
      slice_span text se =
        substring (Z.to_nat (fst se)) (Z.to_nat (snd se - fst se)) text /\
      Z.of_nat (String.length (slice_span text se)) = snd se - fst se /\
      Z.of_nat (String.length (slice_span text se)) <= C) spans.
Proof.
  intros HC. destruct (chunkSpans_total text C O M) as (sp & Hsp & _).
  exists sp. rewrite chunkText_spans, Hsp. split; [done|].
  unfold chunkSpans in Hsp.
  apply spans_bounds in Hsp; [|lia].
  eapply List.Forall_impl; [|exact Hsp].
  intros [s e]. simpl. intros (Hs & HsL & He).
  assert (Z.of_nat (String.length (slice_span text (s, e))) = e - s) as Hlen
    by (apply slice_span_length; lia).
  repeat split; try done; [apply slice_span_substring; lia | lia].
Qed.

Lemma X2_chunks_are_pieces_no_longer_than_chunkSize_witness :
  exists spans,
    chunkText "abcdefghij" 4 9 3 = Some (map (slice_span "abcdefghij") spans) /\
    Forall (fun se => Z.of_nat (String.length (slice_span "abcdefghij" se)) <= 4) spans.
Proof.
  destruct (X2_chunks_are_pieces_no_longer_than_chunkSize "abcdefghij" 4 9 3 ltac:(lia))
    as (spans & Hrun & Hall).
  exists spans. split; [exact Hrun|].
  eapply List.Forall_impl; [|exact Hall]. intros se H. apply H.
Defined.

(** An overlap that is not below the chunk size sets the cursor back to 0
    after every chunk. *)
Lemma spans_stuck_at_zero L C O M fuel count sp :
  0 < C -> C <= O -> 0 < L ->
  spans_from fuel L C O M 0 count = Some sp ->
  sp = repeat (0, Z.min C L) (length sp) /\
  Z.of_nat (length sp) = Z.max (M - Z.of_nat count) 0.
Proof.
  intros HC HO HL. revert count sp. induction fuel as [|fuel IH]; intros count sp H;
    apply spans_from_inv in H as [[-> Hstop]|(f & rest & Hf & HiL & Hc & -> & Hrest)];
    try (split; [done | simpl; lia]); try discriminate Hf.
  injection Hf as <-.
  assert (next_cursor L C O 0 = 0) as Hn.
  { unfold next_cursor. destruct (Z.ltb_spec (Z.min (0 + C) L - O) 0); lia. }
  rewrite Hn in Hrest. destruct (IH _ _ Hrest) as [Hrep Hlen].
  split.
  - simpl. rewrite Z.add_0_l. by rewrite <- Hrep.
  - simpl length. lia.
Qed.

(** X3. With an overlap that is not below a positive chunk size, a
    non-empty text is never chunked beyond its first [chunkSize] code
    units: all the chunks, [maxChunks] of them, are that same first
    piece. *)
Theorem X3_overlap_not_below_chunkSize_repeats_first_chunk text C O M :
  0 < C -> C <= O -> text <> "" ->
  chunkText text C O M =
    Some (repeat (Js.slice text 0 (Z.min C (Z.of_nat (String.length text))))
                 (Z.to_nat M)).
Proof.
  intros HC HO Hne. destruct (chunkSpans_total text C O M) as (sp & Hsp & _).
  rewrite chunkText_spans, Hsp. unfold chunkSpans in Hsp.
  apply spans_stuck_at_zero in Hsp as [Hrep Hlen]; try done;
    [|destruct text; [done | simpl; lia]].
  rewrite Hrep. simpl. f_equal.
  replace (length sp) with (Z.to_nat M) by lia.
  generalize (Z.to_nat M). intros n. induction n as [|n IH]; simpl; [done|].
  by rewrite IH.
Qed.

Lemma X3_overlap_not_below_chunkSize_repeats_first_chunk_witness :
  chunkText "abcdefghij" 4 4 3 = Some (repeat (Js.slice "abcdefghij" 0 4) 3).
Proof.
  exact (X3_overlap_not_below_chunkSize_repeats_first_chunk "abcdefghij" 4 4 3
           ltac:(lia) ltac:(lia) ltac:(discriminate)).
Defined.

Lemma prefix_substring (k : nat) s : String.prefix (substring 0 k s) s = true.
Proof.
  revert k. induction s as [|c s IH]; intros [|k]; simpl; try done.
  destruct (ascii_dec c c); [apply IH | congruence].
Qed.

Lemma truncateText_substring str maxChars :
  0 <= maxChars ->
  truncateText str maxChars =
    substring 0 (Nat.min (String.length str) (Z.to_nat maxChars)) str.
Proof.
  intros Hn. unfold truncateText.
  destruct (String.eqb_spec str "") as [->|Hne]; [by destruct (Z.to_nat maxChars)|].
  destruct (Z.gtb_spec (Z.of_nat (String.length str)) maxChars) as [Hgt|Hle].
  - unfold Js.slice. simpl. destruct (Z.ltb_spec maxChars 0); [lia|].
    f_equal; lia.
  - rewrite Nat.min_l by lia. by rewrite substring_all.
Qed.

Lemma truncateText_length str maxChars :
  0 <= maxChars ->
  Z.of_nat (String.length (truncateText str maxChars)) =
    Z.min (Z.of_nat (String.length str)) maxChars.
Proof.
  intros Hn. rewrite (truncateText_substring str maxChars Hn).
  rewrite substring_length by lia. lia.
Qed.

(** X4. With a cap that is not negative, [truncateText] returns the first
    [min (length, maxChars)] code units of the text: a text within the cap
    is returned as it is, and truncating twice is truncating once. *)
Theorem X4_truncateText_keeps_a_prefix str maxChars :
  0 <= maxChars ->
  String.prefix (truncateText str maxChars) str = true /\
  String.length (truncateText str maxChars) =
    Nat.min (String.length str) (Z.to_nat maxChars) /\
  (Z.of_nat (String.length str) <= maxChars -> truncateText str maxChars = str) /\
  truncateText (truncateText str maxChars) maxChars = truncateText str maxChars.
Proof.
  intros Hn. rewrite (truncateText_substring str maxChars Hn).
  assert (String.length (substring 0 (Nat.min (String.length str) (Z.to_nat maxChars)) str)
          = Nat.min (String.length str) (Z.to_nat maxChars)) as Hlen
    by (apply substring_length; lia).
  split; [apply prefix_substring|]. split; [done|]. split.
  - intros Hle. rewrite Nat.min_l by lia. apply substring_all.
  - rewrite (truncateText_substring _ maxChars Hn), Hlen.
    rewrite Nat.min_l by lia. rewrite <- Hlen at 1. apply substring_all.
Qed.

Lemma X4_truncateText_keeps_a_prefix_witness :
  String.length (truncateText "abcdef" 4) = 4%nat /\
  truncateText (truncateText "abcdef" 4) 4 = truncateText "abcdef" 4.
Proof.
  destruct (X4_truncateText_keeps_a_prefix "abcdef" 4 ltac:(lia)) as (_ & Hlen & _ & Hidem).
  split; [exact Hlen | exact Hidem].
Defined.

(** X5. A document ingested by [main] is capped at 60000 code units and
    chunked with 800, 80, 80: a non-empty text always gives 80 chunks, and
    together they cover the offsets below [min (length, 57680)] and none
    beyond: what a long document holds after offset 57680 is never
    indexed, although the cap on the text is 60000. *)
Theorem X5_ingested_text_is_covered_up_to_57680 text :
  text <> "" ->
  let capped := truncateText text 60000 in
  let L := Z.of_nat (String.length text) in
  exists spans,
    chunkText capped 800 80 80 = Some (map (slice_span capped) spans) /\
    length spans = 80%nat /\
    last_end spans = Z.min L 57680 /\
    covers 0 (Z.min L 57680) spans /\
    Forall (fun se => snd se <= 57680) spans.
Proof.
  intros Hne capped L.
  assert (Z.of_nat (String.length capped) = Z.min L 60000) as Hcap.
  { unfold capped. rewrite (truncateText_substring text 60000 ltac:(lia)).
    rewrite substring_length by lia. lia. }
  assert (0 < L) as HL by (unfold L; destruct text; [done | simpl; lia]).
  destruct (chunkSpans_total capped 800 80 80) as (sp & Hsp & _).
  exists sp. rewrite chunkText_spans, Hsp. split; [done|].
  unfold chunkSpans in Hsp. rewrite Hcap in Hsp.
  assert (length sp = 80%nat) as Hlen.
  { pose proof (spans_count_positive_overlap (Z.min L 60000) 800 80 80 ltac:(lia)
                  (Z.to_nat 80) 0 0%nat sp ltac:(lia) ltac:(lia) Hsp). lia. }
  assert (forall (k : nat) s e, sp !! k = Some (s, e) ->
            e = Z.min (800 + Z.of_nat k * (800 - 80)) (Z.min L 60000)) as Hcf.
  { intros k s e Hk.
    eapply (spans_end_closed_form (Z.min L 60000) 800 80 80 ltac:(lia) ltac:(lia)
              (Z.to_nat 80) 0 0%nat sp 800); [lia | lia | f_equal; lia | exact Hsp | exact Hk]. }
  assert (last_end sp = Z.min L 57680) as Hlast.
  { destruct (lookup_lt_is_Some_2 sp 79 ltac:(lia)) as [[s e] Hk].
    rewrite (last_end_lookup sp 79 s e Hlen Hk), (Hcf 79%nat s e Hk). lia. }
  split; [done|]. split; [done|]. split.
  - rewrite <- Hlast.
    apply (spans_cover (Z.min L 60000) 800 80 80 ltac:(lia) ltac:(lia)
             (Z.to_nat 80) 0 0%nat sp); [lia | exact Hsp].
  - apply Forall_lookup. intros k [s e] Hk. simpl.
    pose proof (lookup_lt_Some _ _ _ Hk) as Hlt.
    rewrite (Hcf k s e Hk). lia.
Qed.

Lemma X5_ingested_text_is_covered_up_to_57680_witness :
  exists spans,
    chunkText (truncateText "abc" 60000) 800 80 80 =
      Some (map (slice_span (truncateText "abc" 60000)) spans) /\
    length spans = 80%nat /\ last_end spans = 3.
Proof.
  destruct (X5_ingested_text_is_covered_up_to_57680 "abc" ltac:(discriminate))
    as (spans & Hrun & Hlen & Hlast & _).
  exists spans. split; [exact Hrun|]. split; [exact Hlen | exact Hlast].
Defined.

End ChunkerExtras.

(** ** Further theorems: upsert and the loop over the documents *)

Module IngestExtras.
Import Runtime Ingest Feeds Pipeline Traces.

Lemma qdrant_upsert_call_run env pts w :
  qdrant_upsert_call env pts w =
  match qdrant_upsert env (time w) pts with
  | Some e => (log_event (EvUpsert pts) w, Thrown (Some e))
  | None => (put_points pts (log_event (EvUpsert pts) w), Returned tt)
  end.
Proof.
  unfold qdrant_upsert_call, mbind, M_bind, get_time, emit, throw. cbv beta iota.
  by destruct (qdrant_upsert env (time w) pts).
Qed.

Lemma batch_points_of env url title i slice vectors :
  Forall (point_of env url title) (batch_points env url title i slice vectors).
Proof.
  unfold batch_points. generalize 0%nat.
  induction vectors as [|v vs IH]; intros j0; simpl; constructor; [|apply IH].
  split; [done|]. split; [done|]. by exists (i + j0)%nat.
Qed.

Lemma lookups_of_all {A} (l : list A) :
  map (fun j => l !! j) (seq 0 (length l)) = map Some l.
Proof.
  induction l as [|a l IH]; simpl; [done|].
  rewrite <- seq_shift, map_map. simpl. by rewrite IH.
Qed.

Lemma batch_points_texts env url title i slice vectors :
  length vectors = length slice ->
  map point_text (batch_points env url title i slice vectors) = map Some slice.
Proof.
  intros Hlen. rewrite <- lookups_of_all, <- Hlen. clear Hlen. unfold batch_points.
  generalize 0%nat. induction vectors as [|v vs IH]; intros j0; simpl; [done|].
  by rewrite IH.
Qed.

Lemma array_slice_rest {A} (xs : list A) i n :
  array_slice xs i n ++ skipn (i + n) xs = skipn i xs.
Proof.
  unfold array_slice. rewrite Nat.add_comm, <- skipn_skipn. apply firstn_skipn.
Qed.

Section WithEnv.
Variable env : Env.

(** The loop of [upsert] under any behaviour of the two services. *)
Lemma upsert_loop_any fuel chunks url title i w :
  (length chunks - i <= fuel)%nat ->
  exists w' out seg,
    upsert_loop env fuel chunks url title i w = Some (w', out) /\
    sessions w' = sessions w /\
    dom (collection w) ⊆ dom (collection w') /\
    trace w' = trace w ++ seg /\
    Forall (fun b => (1 <= length b <= BATCH)%nat) (embedded_batches seg) /\
    (length (embedded_batches seg) * BATCH <= (length chunks - i) + (BATCH - 1))%nat /\
    ((i < length chunks)%nat -> embedded_batches seg <> []) /\
    Forall (point_of env url title) (upserted_points seg).
Proof.
  pose proof (eq_refl : BATCH = 32%nat) as HB.
  revert i w. induction fuel as [|fuel IH]; intros i w Hfuel; cbn [upsert_loop].
  - destruct (Nat.ltb_spec i (length chunks)); [lia|].
    exists w, (Returned tt), []. rewrite app_nil_r. simpl.
    repeat split; try done; try lia; try constructor.
  - destruct (Nat.ltb_spec i (length chunks)) as [Hlt|Hge].
    2:{ exists w, (Returned tt), []. rewrite app_nil_r. simpl.
        repeat split; try done; try lia; try constructor. }
    rewrite EmbeddingFacts.embedBatch_run.
    set (slice := array_slice chunks i BATCH).
    assert ((1 <= length slice <= BATCH)%nat) as Hslice
      by (unfold slice; rewrite IngestFacts.array_slice_length; lia).
    destruct (embedding_result (jina_post env (time w) slice)) as [vectors|e].
    2:{ exists (log_event (EvEmbed slice) w), (Thrown e), [EvEmbed slice].
        simpl. repeat split; try done; try lia;
          try (constructor; [exact Hslice | constructor]); try constructor. }
    set (pts := batch_points env url title i slice vectors).
    set (w1 := log_event (EvEmbed slice) w).
    rewrite qdrant_upsert_call_run.
    destruct (qdrant_upsert env (time w1) pts) as [e|].
    { exists (log_event (EvUpsert pts) w1), (Thrown (Some e)), [EvEmbed slice; EvUpsert pts].
      simpl. rewrite app_nil_r. repeat split; try done; try lia;
        try (constructor; [exact Hslice | constructor]).
      - by rewrite <- app_assoc.
      - apply batch_points_of. }
    destruct (IH (i + BATCH)%nat (put_points pts (log_event (EvUpsert pts) w1)))
      as (w' & out & seg & -> & Hs & Hdom & Htr & Hb & Hcount & _ & Hp); [lia|].
    exists w', out, (EvEmbed slice :: EvUpsert pts :: seg).
    split; [done|]. split; [by rewrite Hs|]. split.
    { etrans; [|exact Hdom]. rewrite IngestFacts.put_points_dom. simpl.
      apply union_subseteq_l. }
    split; [rewrite Htr; simpl; by rewrite <- !app_assoc|].
    split; [simpl; by constructor|].
    split; [simpl; lia|]. split; [done|].
    simpl. apply List.Forall_app. split; [apply batch_points_of | done].
Qed.

(** The loop of [upsert] when both services keep their contract. *)
Lemma upsert_loop_texts fuel chunks url title i w :
  services_keep_contract env ->
  (length chunks - i <= fuel)%nat ->
  exists w' seg,
    upsert_loop env fuel chunks url title i w = Some (w', Returned tt) /\
    trace w' = trace w ++ seg /\
    concat (embedded_batches seg) = skipn i chunks /\
    map point_text (upserted_points seg) = map Some (skipn i chunks).
Proof.
  intros [Hembed Hstore].
  pose proof (eq_refl : BATCH = 32%nat) as HB.
  revert i w. induction fuel as [|fuel IH]; intros i w Hfuel; cbn [upsert_loop].
  - destruct (Nat.ltb_spec i (length chunks)); [lia|].
    exists w, []. rewrite app_nil_r, skipn_all2 by lia. by repeat split.
  - destruct (Nat.ltb_spec i (length chunks)) as [Hlt|Hge].
    2:{ exists w, []. rewrite app_nil_r, skipn_all2 by lia. by repeat split. }
    rewrite EmbeddingFacts.embedBatch_run.
    set (slice := array_slice chunks i BATCH).
    destruct (Hembed (time w) slice) as (vectors & -> & Hlen).
    set (pts := batch_points env url title i slice vectors).
    rewrite qdrant_upsert_call_run, Hstore.
    destruct (IH (i + BATCH)%nat
                (put_points pts (log_event (EvUpsert pts) (log_event (EvEmbed slice) w))))
      as (w' & seg & -> & Htr & Hb & Ht); [lia|].
    exists w', (EvEmbed slice :: EvUpsert pts :: seg).
    split; [done|]. split; [rewrite Htr; simpl; by rewrite <- !app_assoc|].
    split.
    + simpl. rewrite Hb. apply array_slice_rest.
    + simpl. rewrite map_app, Ht. unfold pts.
      rewrite (batch_points_texts env url title i slice vectors Hlen), <- map_app.
      f_equal. apply array_slice_rest.
Qed.

End WithEnv.

(** X6. Whatever the embedding service and the store answer, [upsert]
    leaves its loop; every batch it sends to the embedding service holds
    between 1 and 32 chunks, and it sends no more batches than 32-chunk
    batches are needed for the chunks. *)
Theorem X6_upsert_sends_batches_of_at_most_32 env chunks url title w :
  exists w' out seg,
    upsert env chunks url title w = Some (w', out) /\
    trace w' = trace w ++ seg /\
    Forall (fun b => (1 <= length b <= 32)%nat) (embedded_batches seg) /\
    (length (embedded_batches seg) * 32 <= length chunks + 31)%nat /\
    (chunks <> [] -> embedded_batches seg <> []).
Proof.
  destruct (upsert_loop_any env (length chunks) chunks url title 0 w ltac:(lia))
    as (w' & out & seg & Hrun & _ & _ & Htr & Hb & Hcount & Hne & _).
  exists w', out, seg. rewrite Nat.sub_0_r in Hcount.
  repeat split; try done.
  intros Hc. apply Hne. destruct chunks; [done | simpl; lia].
Qed.

(** X7. Whatever the services answer, and whether [upsert] returns or
    throws, it never removes a point from the collection and never
    touches the session store; every point it sends carries the url and
    the title of the document and an id hashed from that url and an
    index. *)
Theorem X7_upsert_only_adds_points_of_its_document env chunks url title w :
  exists w' out seg,
    upsert env chunks url title w = Some (w', out) /\
    trace w' = trace w ++ seg /\
    sessions w' = sessions w /\
    dom (collection w) ⊆ dom (collection w') /\
    Forall (point_of env url title) (upserted_points seg).
Proof.
  destruct (upsert_loop_any env (length chunks) chunks url title 0 w ltac:(lia))
    as (w' & out & seg & Hrun & Hs & Hdom & Htr & _ & _ & _ & Hp).
  by exists w', out, seg.
Qed.

(** X8. With an embedding service that returns one vector per text and a
    store that accepts every batch, [upsert] sends every chunk to the
    embedding service exactly once, in order, and sends the store one
    point per chunk, in order, whose payload text is that chunk. *)
Theorem X8_upsert_sends_one_point_per_chunk env chunks url title w :
  services_keep_contract env ->
  exists w' seg,
    upsert env chunks url title w = Some (w', Returned tt) /\
    trace w' = trace w ++ seg /\
    concat (embedded_batches seg) = chunks /\
    map point_text (upserted_points seg) = map Some chunks.
Proof.
  intros Hc.
  destruct (upsert_loop_texts env (length chunks) chunks url title 0 w Hc ltac:(lia))
    as (w' & seg & Hrun & Htr & Hb & Ht).
  by exists w', seg.
Qed.

Lemma X8_upsert_sends_one_point_per_chunk_witness :
  exists w' seg,
    upsert Examples.quiet_env ["a"; "b"; "c"] "https://x/1" "A" Examples.empty_world
      = Some (w', Returned tt) /\
    map point_text (upserted_points seg) = map Some ["a"; "b"; "c"].
Proof.
  destruct (X8_upsert_sends_one_point_per_chunk Examples.quiet_env ["a"; "b"; "c"]
              "https://x/1" "A" Examples.empty_world IngestFacts.quiet_env_keeps_contract)
    as (w' & seg & Hrun & _ & _ & Ht).
  exists w', seg. exact (conj Hrun Ht).
Defined.

(** One document, under any behaviour of the services. *)
Lemma ingest_document_any env url title text w :
  exists w' seg,
    ingest_document env url title text w = Some (w', Returned tt) /\
    trace w' = trace w ++ seg /\
    sessions w' = sessions w /\
    dom (collection w) ⊆ dom (collection w') /\
    (text <> "" -> embedded_batches seg <> []) /\
    Forall (point_of env url title) (upserted_points seg).
Proof.
  unfold ingest_document.
  destruct (ChunkerFacts.chunkText_total (truncateText text 60000) 800 80 80)
    as (chunks & Hchunks & _).
  assert (text <> "" -> chunks <> []) as Hne.
  { intros Ht.
    destruct (ChunkerFacts.chunkText_positive_overlap_count
                (truncateText text 60000) 800 80 80 ltac:(lia) ltac:(lia))
      as (chunks' & Hrun & Hlen).
    - intros Hempty.
      pose proof (ChunkerExtras.truncateText_length text 60000 ltac:(lia)) as Hl.
      rewrite Hempty in Hl. destruct text; [done|].
      cbn [String.length] in Hl. lia.
    - rewrite Hchunks in Hrun. injection Hrun as <-. destruct chunks; [simpl in Hlen; lia | done]. }
  rewrite Hchunks.
  destruct (upsert_loop_any env (length chunks) chunks url title 0 w ltac:(lia))
    as (w' & out & seg & Hrun & Hs & Hdom & Htr & _ & _ & Hb & Hp).
  unfold upsert. rewrite Hrun.
  assert (text <> "" -> embedded_batches seg <> []) as Hb'.
  { intros Ht. apply Hb. specialize (Hne Ht). destruct chunks; [done | simpl; lia]. }
  destruct out as [[]|e].
  - by exists w', seg.
  - exists (log_event (EvLog e) w'), (seg ++ [EvLog e]).
    split; [done|]. split; [simpl; by rewrite Htr, <- app_assoc|].
    split; [done|]. split; [done|].
    unfold embedded_batches, upserted_points. rewrite !flat_map_app. simpl.
    rewrite !app_nil_r. by split.
Qed.

(** X13. Whatever the services answer, the loop of [main] over the
    documents never throws and comes to its end: a document whose
    embedding or upsert fails is logged and the next one is taken. At least
    one embedding call is made for every document whose text is not empty;
    every point sent carries the url and the title of one of the documents;
    no point is ever removed and the session store is not touched. *)
Theorem X13_ingestion_goes_through_every_document env docs w :
  exists w' seg,
    ingest_all env docs w = Some (w', Returned tt) /\
    trace w' = trace w ++ seg /\
    sessions w' = sessions w /\
    dom (collection w) ⊆ dom (collection w') /\
    (length (List.filter (fun d => truthy (doc_text d)) docs)
     <= length (embedded_batches seg))%nat /\
    Forall (fun p => exists d, In d docs /\ point_of env (doc_url d) (doc_title d) p)
      (upserted_points seg).
Proof.
  revert w. induction docs as [|d docs IH]; intros w.
  - exists w, []. rewrite app_nil_r. simpl. repeat split; try done; try constructor.
  - cbn [ingest_all].
    destruct (ingest_document_any env (doc_url d) (doc_title d) (doc_text d) w)
      as (w1 & seg1 & -> & Htr1 & Hs1 & Hdom1 & Hb1 & Hp1).
    destruct (IH w1) as (w' & seg & Hrun & Htr & Hs & Hdom & Hb & Hp).
    exists w', (seg1 ++ seg). split; [done|].
    split; [by rewrite Htr, Htr1, <- app_assoc|].
    split; [congruence|]. split; [by etrans|]. split.
    + unfold embedded_batches in *. rewrite flat_map_app, length_app.
      cbn [List.filter]. unfold truthy at 1.
      destruct (String.eqb_spec (doc_text d) "") as [Hd|Hd]; simpl; [lia|].
      specialize (Hb1 Hd). destruct (flat_map _ seg1); [done | simpl; lia].
    + unfold upserted_points in *. rewrite flat_map_app. apply List.Forall_app. split.
      * eapply List.Forall_impl; [|exact Hp1]. intros p Hpt. exists d. split; [by left | done].
      * eapply List.Forall_impl; [|exact Hp]. intros p (d' & Hin & Hpt).
        exists d'. split; [by right | done].
Qed.

End IngestExtras.

(** ** Further theorems: the feed list and the items taken from the feeds *)

Module FeedFacts.
Import Runtime Feeds.

Lemma trim_start_clean s : starts_clean (trim_start s).
Proof.
  induction s as [|c s IH]; simpl; [done|].
  destruct (Js.is_white_space c) eqn:Hc; [done | by simpl].
Qed.

Lemma trim_start_id s : starts_clean s -> trim_start s = s.
Proof. destruct s as [|c s]; simpl; [done|]. by intros ->. Qed.

Lemma trim_end_clean s : starts_clean s -> starts_clean (trim_end s).
Proof.
  destruct s as [|c s]; simpl; [done|]. intros Hc. rewrite Hc.
  by destruct (trim_end s).
Qed.

Lemma trim_end_idem s : trim_end (trim_end s) = trim_end s.
Proof.
  induction s as [|c s IH]; simpl; [done|].
  destruct (trim_end s) as [|d t] eqn:Ht.
  - destruct (Js.is_white_space c) eqn:Hc; simpl; [done | by rewrite Hc].
  - change (trim_end (String c (String d t))) with
      (match trim_end (String d t) with
       | EmptyString => if Js.is_white_space c then EmptyString else String c EmptyString
       | u => String c u
       end).
    by rewrite IH.
Qed.

Lemma trim_idem s : trim (trim s) = trim s.
Proof.
  unfold trim. rewrite (trim_start_id (trim_end (trim_start s))).
  - apply trim_end_idem.
  - apply trim_end_clean, trim_start_clean.
Qed.

Lemma lacks_trim_start c s : lacks c s = true -> lacks c (trim_start s) = true.
Proof.
  induction s as [|d s IH]; simpl; [done|]. intros H.
  destruct (Js.is_white_space d); [|done].
  apply andb_true_iff in H as [_ H]. by apply IH.
Qed.

Lemma lacks_trim_end c s : lacks c s = true -> lacks c (trim_end s) = true.
Proof.
  induction s as [|d s IH]; simpl; [done|]. intros H.
  apply andb_true_iff in H as [Hd H]. specialize (IH H).
  destruct (trim_end s) as [|e t].
  - destruct (Js.is_white_space d); [done|]. simpl. by rewrite Hd.
  - simpl in *. by rewrite Hd, IH.
Qed.

Lemma split_on_pieces_lack sep s :
  Forall (fun p => lacks sep p = true) (split_on sep s).
Proof.
  induction s as [|c s IH]; simpl; [by repeat constructor|].
  destruct (Ascii.eqb c sep) eqn:Hc; [by constructor|].
  destruct (split_on sep s) as [|p ps]; [by repeat constructor; simpl; rewrite Hc|].
  inversion IH as [|? ? Hp Hps]; subst. constructor; [|done].
  simpl. by rewrite Hc, Hp.
Qed.

Lemma split_on_whole sep s : lacks sep s = true -> split_on sep s = [s].
Proof.
  induction s as [|c s IH]; simpl; [done|]. intros H.
  apply andb_true_iff in H as [Hc H]. apply negb_true_iff in Hc.
  by rewrite Hc, (IH H).
Qed.

Lemma split_on_first sep s rest :
  lacks sep s = true ->
  split_on sep (s +:+ String sep rest) = s :: split_on sep rest.
Proof.
  induction s as [|c s IH]; intros H.
  - rewrite IngestFacts.append_nil_l. simpl. by rewrite Ascii.eqb_refl.
  - rewrite IngestFacts.append_cons. simpl in *.
    apply andb_true_iff in H as [Hc H]. apply negb_true_iff in Hc.
    by rewrite Hc, (IH H).
Qed.

Lemma split_on_concat sep urls :
  urls <> [] -> Forall (fun u => lacks sep u = true) urls ->
  split_on sep (String.concat (String sep EmptyString) urls) = urls.
Proof.
  induction urls as [|u urls IH]; intros Hne Hall; [done|].
  inversion Hall as [|? ? Hu Hrest]; subst.
  destruct urls as [|v urls]; [by apply split_on_whole|].
  change (String.concat (String sep "") (u :: v :: urls))
    with (u +:+ String sep (String.concat (String sep "") (v :: urls))).
  rewrite (split_on_first sep u _ Hu). f_equal. by apply IH.
Qed.

(** X9. Every url of [RSS_LIST] is non-empty, has no white space at
    either end and holds no comma, whatever the value of [NEWS_RSS_LIST];
    an unset or empty value gives the empty list. *)
Theorem X9_RSS_LIST_holds_clean_urls NEWS_RSS_LIST :
  Forall feed_url (RSS_LIST NEWS_RSS_LIST) /\ RSS_LIST "" = [].
Proof.
  split; [|reflexivity]. unfold RSS_LIST.
  apply List.Forall_forall. intros u Hu.
  apply filter_In in Hu as [Hin Hne].
  apply in_map_iff in Hin as (p & <- & Hp).
  pose proof (split_on_pieces_lack "," NEWS_RSS_LIST) as Hall.
  rewrite List.Forall_forall in Hall. specialize (Hall p Hp).
  split; [|split].
  - unfold truthy in Hne. apply negb_true_iff in Hne. by apply String.eqb_neq in Hne.
  - apply trim_idem.
  - unfold trim. by apply lacks_trim_end, lacks_trim_start.
Qed.

(** X10. A list of urls that are non-empty, trimmed and free of commas is
    read back as it is from its comma-separated form. *)
Theorem X10_RSS_LIST_reads_back_joined_urls urls :
  Forall feed_url urls ->
  RSS_LIST (String.concat "," urls) = urls.
Proof.
  intros Hall. unfold RSS_LIST.
  destruct urls as [|u urls]; [reflexivity|].
  rewrite split_on_concat; [|done|].
  2:{ eapply List.Forall_impl; [|exact Hall]. by intros ? (_ & _ & ?). }
  assert (map trim (u :: urls) = u :: urls) as ->.
  { clear -Hall. induction Hall as [|v vs (_ & Hv & _) _ IH]; simpl; [done|].
    by rewrite Hv, IH. }
  clear -Hall. induction Hall as [|v vs (Hv & _ & _) _ IH]; simpl; [done|].
  unfold truthy at 1. apply String.eqb_neq in Hv. by rewrite Hv, IH.
Qed.

Lemma X10_RSS_LIST_reads_back_joined_urls_witness :
  RSS_LIST (String.concat "," ["https://a/rss"; "https://b/feed"]) =
    ["https://a/rss"; "https://b/feed"].
Proof.
  apply X10_RSS_LIST_reads_back_joined_urls.
  repeat constructor; try discriminate; reflexivity.
Defined.

Example RSS_LIST_of_a_loose_value :
  RSS_LIST " https://a/rss , https://b/feed,, " = ["https://a/rss"; "https://b/feed"].
Proof. reflexivity. Qed.

Lemma feed_items_cons fetch k url urls :
  feed_items fetch k (url :: urls) = fetch k url ++ feed_items fetch (S k) urls.
Proof. reflexivity. Qed.

Lemma push_items_below items l all :
  Z.of_nat (length all) < l ->
  push_items items (Some l) all =
    all ++ firstn (Z.to_nat l - length all) items.
Proof.
  revert all. induction items as [|it items IH]; intros all Hlt; simpl.
  - by rewrite firstn_nil, app_nil_r.
  - rewrite length_app. simpl.
    destruct (Z.geb_spec (Z.of_nat (length all + 1)) l) as [Hge|Hnot].
    + replace (Z.to_nat l - length all)%nat with 1%nat by lia. done.
    + rewrite IH by (rewrite length_app; simpl; lia).
      rewrite length_app. simpl.
      replace (Z.to_nat l - length all)%nat
        with (S (Z.to_nat l - (length all + 1)))%nat by lia.
      simpl. by rewrite <- app_assoc.
Qed.

(** The loop over the feeds from a state below a positive limit. *)
Lemma rss_loop_below fetch urls l all fetched :
  Z.of_nat (length all) < l ->
  exists n,
    rss_loop fetch urls (Some l) all fetched =
      (all ++ firstn (Z.to_nat l - length all)
                (feed_items fetch (length fetched) urls),
       fetched ++ firstn n urls) /\
    (n <= length urls)%nat /\
    ((n < length urls)%nat ->
       (Z.to_nat l - length all <=
        length (feed_items fetch (length fetched) (firstn n urls)))%nat) /\
    ((1 <= n)%nat ->
       (length (feed_items fetch (length fetched) (firstn (n - 1) urls))
        < Z.to_nat l - length all)%nat).
Proof.
  revert all fetched. induction urls as [|url urls IH]; intros all fetched Hlt.
  - exists 0%nat. simpl. rewrite firstn_nil, !app_nil_r. repeat split; [lia..].
  - cbn [rss_loop]. rewrite (push_items_below _ l all Hlt).
    set (items := fetch (length fetched) url).
    remember (Z.to_nat l - length all)%nat as k eqn:Hk.
    rewrite feed_items_cons. fold items.
    unfold reached. rewrite length_app, length_firstn.
    assert (feed_items fetch (length fetched) [url] = items) as Hone
      by (unfold feed_items; simpl; by rewrite app_nil_r).
    destruct (Z.geb_spec (Z.of_nat (length all + Nat.min k (length items))) l)
      as [Hge|Hnot].
    + exists 1%nat. assert (k <= length items)%nat as Hki by lia.
      rewrite firstn_app. replace (k - length items)%nat with 0%nat by lia.
      cbn [firstn]. rewrite app_nil_r.
      split; [done|]. split; [simpl; lia|]. split.
      * intros _. rewrite firstn_O, Hone. lia.
      * intros _. cbn [Nat.sub]. rewrite firstn_O. unfold feed_items. simpl. lia.
    + assert (length items < k)%nat as Hki by lia.
      rewrite (firstn_all2 (n := k) items) by lia.
      destruct (IH (all ++ items) (fetched ++ [url])) as (n & Hrun & Hn & Hearly & Hpre);
        [rewrite length_app; lia|].
      rewrite Hrun. rewrite !length_app in *. cbn [length] in *.
      replace (length fetched + 1)%nat with (S (length fetched)) in * by lia.
      exists (S n). split; [|split; [lia|split]].
      * rewrite firstn_app, (firstn_all2 (n := k) items) by lia.
        rewrite <- !app_assoc. cbn [firstn app].
        by replace (Z.to_nat l - (length all + length items))%nat
          with (k - length items)%nat by lia.
      * intros Hn'. cbn [firstn]. rewrite feed_items_cons, length_app. fold items.
        specialize (Hearly ltac:(lia)). lia.
      * intros _. replace (S n - 1)%nat with n by lia.
        destruct n as [|m]; [unfold feed_items; simpl; lia|].
        cbn [firstn]. rewrite feed_items_cons, length_app. fold items.
        specialize (Hpre ltac:(lia)). replace (S m - 1)%nat with m in Hpre by lia.
        lia.
Qed.

(** X11. With a limit of at least 1, [getLatestNewsFromRss] returns the
    first [limit] items of the feeds, in the order of the feed list and of
    each feed (all of them when there are fewer). It fetches the feeds in
    order and stops after the feed with which the limit is reached: a feed
    is only fetched while the items of the feeds before it are fewer than
    the limit. *)
Theorem X11_feeds_are_read_up_to_the_limit fetch urls l :
  1 <= l ->
  exists n,
    getLatestNewsFromRss fetch urls (Some l) =
      (firstn (Z.to_nat l) (feed_items fetch 0 urls), firstn n urls) /\
    (n <= length urls)%nat /\
    (length (fst (getLatestNewsFromRss fetch urls (Some l))) <= Z.to_nat l)%nat /\
    ((n < length urls)%nat ->
       (Z.to_nat l <= length (feed_items fetch 0 (firstn n urls)))%nat) /\
    ((1 <= n)%nat ->
       (length (feed_items fetch 0 (firstn (n - 1) urls)) < Z.to_nat l)%nat).
Proof.
  intros Hl. unfold getLatestNewsFromRss.
  destruct (rss_loop_below fetch urls l [] [] ltac:(simpl; lia))
    as (n & Hrun & Hn & Hearly & Hpre).
  simpl in *. rewrite Nat.sub_0_r in *.
  exists n. rewrite Hrun. simpl. rewrite length_firstn.
  repeat split; try done; lia.
Qed.

Lemma X11_feeds_are_read_up_to_the_limit_witness :
  exists n,
    getLatestNewsFromRss (fun _ _ => [sample_doc 1; sample_doc 2]) ["a"; "b"; "c"] (Some 3) =
      ([sample_doc 1; sample_doc 2; sample_doc 1], firstn n ["a"; "b"; "c"]).
Proof.
  destruct (X11_feeds_are_read_up_to_the_limit (fun _ _ => [sample_doc 1; sample_doc 2])
              ["a"; "b"; "c"] 3 ltac:(lia)) as (n & Hrun & _).
  exists n. exact Hrun.
Defined.

(** X12. With a limit that is zero or negative the test comes too late:
    the first feed is still fetched and its first item, if it has one, is
    returned; no other feed is fetched. With a limit that is not a number
    no test ever holds: every feed is fetched and every item returned. *)
Theorem X12_feeds_with_a_limit_that_is_not_positive fetch url urls l :
  l <= 0 ->
  getLatestNewsFromRss fetch (url :: urls) (Some l) = (firstn 1 (fetch 0%nat url), [url]) /\
  getLatestNewsFromRss fetch (url :: urls) None =
    (feed_items fetch 0 (url :: urls), url :: urls).
Proof.
  intros Hl. split.
  - unfold getLatestNewsFromRss. cbn [rss_loop length app].
    destruct (fetch 0%nat url) as [|it items]; cbn [push_items length app reached firstn].
    + by destruct (Z.geb_spec (Z.of_nat 0) l); [|lia].
    + destruct (Z.geb_spec (Z.of_nat 1) l); [|lia]. cbn [length].
      by destruct (Z.geb_spec (Z.of_nat 1) l); [|lia].
  - unfold getLatestNewsFromRss.
    assert (forall items all, push_items items None all = all ++ items) as Hpush.
    { induction items as [|it items IH]; intros all; simpl; [by rewrite app_nil_r|].
      by rewrite IH, <- app_assoc. }
    assert (forall us all fetched,
              rss_loop fetch us None all fetched =
                (all ++ feed_items fetch (length fetched) us, fetched ++ us)) as Hloop.
    { induction us as [|u us IH]; intros all fetched; cbn [rss_loop reached].
      - by rewrite !app_nil_r.
      - rewrite Hpush, IH, length_app, feed_items_cons. simpl.
        replace (length fetched + 1)%nat with (S (length fetched)) by lia.
        by rewrite <- !app_assoc. }
    by rewrite Hloop.
Qed.

Lemma X12_feeds_with_a_limit_that_is_not_positive_witness :
  getLatestNewsFromRss (fun _ _ => [sample_doc 1; sample_doc 2]) ["a"; "b"] (Some 0) =
    ([sample_doc 1], ["a"]).
Proof.
  exact (proj1 (X12_feeds_with_a_limit_that_is_not_positive
                  (fun _ _ => [sample_doc 1; sample_doc 2]) "a" ["b"] 0 ltac:(lia))).
Defined.

(** *** The text of a feed item *)

Lemma after_gt_lacks s : after_gt s = None <-> lacks ">" s = true.
Proof.
  induction s as [|c s IH]; simpl; [done|].
  destruct (Ascii.eqb c ">"); simpl; [split; discriminate | exact IH].
Qed.

Lemma after_gt_length s r : after_gt s = Some r -> (String.length r < String.length s)%nat.
Proof.
  induction s as [|c s IH]; simpl; [done|].
  destruct (Ascii.eqb c ">"); [intros [= ->]; lia|]. intros H. apply IH in H. lia.
Qed.

Lemma tag_at_length s r : tag_at s = Some r -> (String.length r < String.length s)%nat.
Proof.
  destruct s as [|c [|d s]]; simpl; try done.
  destruct (_ && _); [|done]. intros H. apply after_gt_length in H. lia.
Qed.

(** No tag at a [<]: it is followed at once by a [>], or by no [>] at
    all. *)
Lemma tag_at_none c t :
  tag_at (String c t) = None <->
  Ascii.eqb c "<" = false \/ starts_with_gt t = true \/ lacks ">" t = true.
Proof.
  destruct t as [|d t]; simpl.
  { split; [|done]. intros _. right. by right. }
  destruct (Ascii.eqb c "<"), (Ascii.eqb d ">"); simpl; rewrite ?after_gt_lacks.
  - split; [|done]. intros _. right. by left.
  - split; [intros H; right; by right | by intros [?|[?|?]]].
  - split; [|done]. intros _. by left.
  - split; [|done]. intros _. by left.
Qed.

Lemma has_tag_cons c s :
  has_tag (String c s) = false <-> tag_at (String c s) = None /\ has_tag s = false.
Proof.
  cbn [has_tag]. destruct (tag_at (String c s)); simpl; split; try tauto; try done.
  by intros [? ?].
Qed.

Lemma replace_tags_nil fuel : replace_tags fuel "" = "".
Proof. by destruct fuel. Qed.

Lemma replace_tags_cons fuel c s :
  replace_tags (S fuel) (String c s) =
  match tag_at (String c s) with
  | Some rest => String " " (replace_tags fuel rest)
  | None => String c (replace_tags fuel s)
  end.
Proof. reflexivity. Qed.

(** A string without tags is left as it is. *)
Lemma replace_tags_id fuel s : has_tag s = false -> replace_tags fuel s = s.
Proof.
  revert s. induction fuel as [|fuel IH]; intros [|c s] H; try done.
  apply has_tag_cons in H as [Hnone Hs].
  by rewrite replace_tags_cons, Hnone, IH.
Qed.

Lemma lacks_no_tag s : lacks ">" s = true -> has_tag s = false.
Proof.
  induction s as [|c s IH]; [done|]. intros H. apply has_tag_cons.
  pose proof H as H'. simpl in H'. apply andb_prop in H' as [_ Hs]. split; [|by apply IH].
  apply tag_at_none. right. by right.
Qed.

Lemma tag_at_after_replace fuel c s :
  (String.length s <= fuel)%nat -> tag_at (String c s) = None ->
  tag_at (String c (replace_tags fuel s)) = None.
Proof.
  intros Hfuel Hnone. apply tag_at_none. apply tag_at_none in Hnone as [Hc|[Hgt|Hl]].
  - by left.
  - right. left. destruct s as [|d s]; [done|]. simpl in Hgt, Hfuel.
    destruct fuel as [|fuel]; [lia|]. rewrite replace_tags_cons.
    assert (tag_at (String d s) = None) as ->; [|done].
    apply tag_at_none. left. apply Ascii.eqb_eq in Hgt as ->. reflexivity.
  - right. right. by rewrite (replace_tags_id _ _ (lacks_no_tag _ Hl)).
Qed.

Lemma replace_tags_no_tag fuel s :
  (String.length s <= fuel)%nat -> has_tag (replace_tags fuel s) = false.
Proof.
  revert s. induction fuel as [|fuel IH]; intros [|c s] Hfuel; simpl in Hfuel;
    try done; try lia.
  rewrite replace_tags_cons. destruct (tag_at (String c s)) as [rest|] eqn:Htag.
  - apply has_tag_cons. split.
    + apply tag_at_none. by left.
    + apply IH. apply tag_at_length in Htag. simpl in Htag. lia.
  - apply has_tag_cons. split.
    + apply tag_at_after_replace; [lia | done].
    + apply IH. lia.
Qed.

Lemma collapse_spaces_cons c s :
  collapse_spaces (String c s) =
  if Js.is_white_space c then
    match s with
    | EmptyString => String " " EmptyString
    | String d _ =>
        if Js.is_white_space d then collapse_spaces s else String " " (collapse_spaces s)
    end
  else String c (collapse_spaces s).
Proof. reflexivity. Qed.

Lemma spaced_cons c s :
  spaced (String c s) =
  (if Js.is_white_space c
   then Ascii.eqb c " " &&
        match s with
        | EmptyString => true
        | String d _ => negb (Js.is_white_space d)
        end
   else true) && spaced s.
Proof. reflexivity. Qed.

Lemma collapse_spaces_spaced s : spaced (collapse_spaces s) = true.
Proof.
  induction s as [|c s IH]; [done|]. rewrite collapse_spaces_cons.
  destruct (Js.is_white_space c) eqn:Hc.
  - destruct s as [|d s]; [done|]. destruct (Js.is_white_space d) eqn:Hd; [done|].
    rewrite spaced_cons, IH. rewrite collapse_spaces_cons, Hd. by rewrite Hd.
  - by rewrite spaced_cons, Hc, IH.
Qed.

Lemma collapse_spaces_id s : spaced s = true -> collapse_spaces s = s.
Proof.
  induction s as [|c s IH]; [done|]. rewrite spaced_cons, collapse_spaces_cons.
  intros H. apply andb_prop in H as [Hc Hs].
  destruct (Js.is_white_space c); [|by rewrite IH].
  apply andb_prop in Hc as [Hsp Hnext]. apply Ascii.eqb_eq in Hsp as ->.
  destruct s as [|d s]; [done|]. apply negb_true_iff in Hnext. by rewrite Hnext, IH.
Qed.

Lemma collapse_spaces_lacks s : lacks ">" s = true -> lacks ">" (collapse_spaces s) = true.
Proof.
  induction s as [|c s IH]; [done|]. intros H. pose proof H as H'. simpl in H'.
  apply andb_prop in H' as [Hc Hs]. rewrite collapse_spaces_cons.
  destruct (Js.is_white_space c).
  - destruct s as [|d s]; [done|]. destruct (Js.is_white_space d); [by apply IH|].
    simpl. by apply IH.
  - simpl. rewrite Hc. by apply IH.
Qed.

Lemma gt_is_no_white_space d : Ascii.eqb d ">" = true -> Js.is_white_space d = false.
Proof. intros H. apply Ascii.eqb_eq in H as ->. reflexivity. Qed.

Lemma collapse_spaces_no_tag s : has_tag s = false -> has_tag (collapse_spaces s) = false.
Proof.
  induction s as [|c s IH]; [done|]. intros H. apply has_tag_cons in H as [Hnone Hs].
  specialize (IH Hs). rewrite collapse_spaces_cons.
  destruct (Js.is_white_space c) eqn:Hc.
  - destruct s as [|d s]; [done|]. destruct (Js.is_white_space d); [done|].
    apply has_tag_cons. split; [|done]. apply tag_at_none. by left.
  - apply has_tag_cons. split; [|done]. apply tag_at_none.
    apply tag_at_none in Hnone as [?|[Hgt|Hl]]; [by left| |].
    + right. left. destruct s as [|d s]; [done|]. simpl in Hgt.
      by rewrite collapse_spaces_cons, (gt_is_no_white_space d Hgt).
    + right. right. by apply collapse_spaces_lacks.
Qed.

Lemma trim_start_no_tag s : has_tag s = false -> has_tag (trim_start s) = false.
Proof.
  induction s as [|c s IH]; [done|]. intros H. simpl.
  destruct (Js.is_white_space c); [|done]. apply has_tag_cons in H as [_ Hs]. by apply IH.
Qed.

Lemma trim_end_cons c s :
  trim_end (String c s) =
  match trim_end s with
  | EmptyString => if Js.is_white_space c then EmptyString else String c EmptyString
  | t => String c t
  end.
Proof. reflexivity. Qed.

Lemma trim_end_head d s :
  Js.is_white_space d = false -> exists t, trim_end (String d s) = String d t.
Proof.
  intros Hd. rewrite trim_end_cons, Hd. destruct (trim_end s); eauto.
Qed.

Lemma trim_end_no_tag s : has_tag s = false -> has_tag (trim_end s) = false.
Proof.
  induction s as [|c s IH]; [done|]. intros H. apply has_tag_cons in H as [Hnone Hs].
  specialize (IH Hs). rewrite trim_end_cons.
  destruct (trim_end s) as [|e t] eqn:Ht.
  { destruct (Js.is_white_space c); [done|]. apply has_tag_cons. split; [|done].
    apply tag_at_none. right. by right. }
  apply has_tag_cons. split; [|done]. apply tag_at_none.
  apply tag_at_none in Hnone as [?|[Hgt|Hl]]; [by left| |].
  - right. left. destruct s as [|d s]; [done|]. simpl in Hgt.
    destruct (trim_end_head d s (gt_is_no_white_space d Hgt)) as (t' & Ht').
    rewrite Ht' in Ht. injection Ht as <- _. done.
  - right. right. rewrite <- Ht. by apply lacks_trim_end.
Qed.

Lemma trim_start_spaced s : spaced s = true -> spaced (trim_start s) = true.
Proof.
  induction s as [|c s IH]; [done|]. intros H. simpl.
  destruct (Js.is_white_space c); [|done].
  rewrite spaced_cons in H. apply andb_prop in H as [_ Hs]. by apply IH.
Qed.

Lemma trim_end_spaced s : spaced s = true -> spaced (trim_end s) = true.
Proof.
  induction s as [|c s IH]; [done|]. rewrite spaced_cons. intros H.
  apply andb_prop in H as [Hc Hs]. specialize (IH Hs). rewrite trim_end_cons.
  destruct (trim_end s) as [|e t] eqn:Ht.
  { destruct (Js.is_white_space c) eqn:Hw; [done|]. by rewrite spaced_cons, Hw. }
  rewrite spaced_cons, IH, andb_true_r.
  destruct (Js.is_white_space c); [|done].
  apply andb_prop in Hc as [-> Hnext]. simpl.
  destruct s as [|d s]; [done|]. apply negb_true_iff in Hnext.
  destruct (trim_end_head d s Hnext) as (t' & Ht'). rewrite Ht' in Ht.
  injection Ht as <- _. by rewrite Hnext.
Qed.

(** X23. The text of a feed item, as [getItemsFromOneRss] cleans it: no
    tag is left in it, its only white space is single spaces between other
    code units, none at either end, and cleaning it once more changes
    nothing; a text that is already of this form is kept as it is. *)
Theorem X23_the_text_of_a_feed_item_is_clean raw :
  let t := item_text raw in
  has_tag t = false /\ spaced t = true /\ trim t = t /\ item_text t = t /\
  (forall s, has_tag s = false -> spaced s = true -> trim s = s -> item_text s = s) /\
  item_text "" = "".
Proof.
  assert (forall s, has_tag s = false -> spaced s = true -> trim s = s -> item_text s = s)
    as Hkept.
  { intros s Htag Hsp Htrim. unfold item_text, strip_tags.
    by rewrite (replace_tags_id _ _ Htag), (collapse_spaces_id _ Hsp). }
  assert (has_tag (item_text raw) = false) as Htag.
  { unfold item_text, trim. apply trim_end_no_tag, trim_start_no_tag, collapse_spaces_no_tag.
    by apply replace_tags_no_tag. }
  assert (spaced (item_text raw) = true) as Hsp.
  { unfold item_text, trim. apply trim_end_spaced, trim_start_spaced, collapse_spaces_spaced. }
  assert (trim (item_text raw) = item_text raw) as Htrim by apply trim_idem.
  cbv zeta. split; [done|]. split; [done|]. split; [done|].
  split; [by apply Hkept|]. split; [done|]. reflexivity.
Qed.

Example item_text_of_a_paragraph :
  item_text ("<p>Stocks  <b>rose</b>" +:+ Js.nl +:+ " on <>Monday. </p>") =
  "Stocks rose on <>Monday.".
Proof. vm_compute. reflexivity. Qed.

End FeedFacts.

(** ** Further theorems: what a request costs, what it leaves alone *)

Module ServerExtras.
Import Runtime Server Traces Routes.

Lemma total_wait_app seg1 seg2 :
  total_wait (seg1 ++ seg2) = total_wait seg1 + total_wait seg2.
Proof.
  induction seg1 as [|ev seg1 IH]; simpl; [done|].
  rewrite IH. destruct ev; lia.
Qed.

Lemma count_events_app f seg1 seg2 :
  count_events f (seg1 ++ seg2) = (count_events f seg1 + count_events f seg2)%nat.
Proof. unfold count_events. by rewrite List.filter_app, length_app. Qed.

Lemma within_app e1 s1 g1 r1 ms1 e2 s2 g2 r2 ms2 seg1 seg2 :
  within e1 s1 g1 r1 ms1 seg1 -> within e2 s2 g2 r2 ms2 seg2 ->
  within (e1 + e2) (s1 + s2) (g1 + g2) (r1 + r2) (ms1 + ms2) (seg1 ++ seg2).
Proof.
  intros (? & ? & ? & ? & ? & ?) (? & ? & ? & ? & ? & ?).
  unfold within. rewrite !count_events_app, total_wait_app.
  repeat split; try lia. by apply List.Forall_app.
Qed.

Lemma within_weaken e s g r ms e' s' g' r' ms' seg :
  within e s g r ms seg ->
  (e <= e')%nat -> (s <= s')%nat -> (g <= g')%nat -> (r <= r')%nat -> ms <= ms' ->
  within e' s' g' r' ms' seg.
Proof.
  intros (? & ? & ? & ? & ? & ?) ? ? ? ? ?. unfold within. repeat split; try lia. done.
Qed.

Lemma within_nil : within 0 0 0 0 0 [].
Proof. unfold within, count_events. simpl. repeat split; try lia. constructor. Qed.

Lemma wait_for_bounds a : 400 <= wait_for a <= 3200.
Proof.
  unfold wait_for, delays. simpl.
  destruct a as [|[|[|[|a]]]]; simpl; lia.
Qed.

Lemma schedule_step a n : schedule a (S n) = wait_for a + schedule (S a) n.
Proof. reflexivity. Qed.

Lemma schedule_nonneg a n : 0 <= schedule a n.
Proof.
  revert a. induction n as [|n IH]; intros a; [done|].
  rewrite schedule_step. pose proof (wait_for_bounds a). specialize (IH (S a)). lia.
Qed.

Lemma append_inj_l s a b : s +:+ a = s +:+ b -> a = b.
Proof.
  induction s as [|c s IH]; [done|].
  rewrite !IngestFacts.append_cons. intros [= H]. by apply IH.
Qed.

Lemma session_key_inj a b : session_key a = session_key b -> a = b.
Proof. apply append_inj_l. Qed.

Section WithEnv.
Variable env : Env.

Lemma attempt_loop_account remaining a m p lastErr w w' out :
  attempt_loop env remaining a m p lastErr w = (w', out) ->
  sessions w' = sessions w /\ collection w' = collection w /\
  exists seg, trace w' = trace w ++ seg /\
              within 0 0 remaining 0 (schedule a remaining) seg.
Proof.
  revert a lastErr w. induction remaining as [|n IH]; intros a lastErr w Hrun.
  - injection Hrun as <- <-. split; [done|]. split; [done|].
    exists []. rewrite app_nil_r. split; [done | apply within_nil].
  - rewrite GenerationFacts.attempt_loop_step in Hrun. cbv zeta in Hrun.
    set (r := generateContent env (time w) m p) in *.
    assert (within 0 0 1 0 0 [EvGenerate m p r]) as Hone
      by (unfold within, count_events; simpl; repeat split; try lia; by repeat constructor).
    assert (trace (log_event (EvGenerate m p r) w) = trace w ++ [EvGenerate m p r]) as Htr1
      by done.
    pose proof (schedule_nonneg a (S n)) as Hnn.
    destruct r as [t|err].
    { injection Hrun as <- <-. split; [done|]. split; [done|].
      eexists. split; [exact Htr1|].
      eapply within_weaken; [exact Hone | lia..]. }
    destruct (retriable err).
    + apply IH in Hrun as (Hs & Hc & seg & Htr & Hw).
      split; [done|]. split; [done|].
      exists ([EvGenerate m p (GenError err)] ++ [EvSleep (wait_for a)] ++ seg).
      split; [rewrite Htr; simpl; by rewrite <- !app_assoc|].
      assert (within 0 0 0 0 (wait_for a) [EvSleep (wait_for a)]) as Hsl
        by (unfold within, count_events; simpl; repeat split; try lia; by repeat constructor).
      pose proof (within_app _ _ _ _ _ _ _ _ _ _ _ _ Hone
                    (within_app _ _ _ _ _ _ _ _ _ _ _ _ Hsl Hw)) as Hall.
      rewrite schedule_step.
      eapply within_weaken; [exact Hall | lia..].
    + injection Hrun as <- <-. split; [done|]. split; [done|].
      eexists. split; [exact Htr1|].
      eapply within_weaken; [exact Hone | lia..].
Qed.

Lemma generateWithRetries_account primary prompt n w w' out :
  generateWithRetries env primary prompt n w = (w', out) ->
  sessions w' = sessions w /\ collection w' = collection w /\
  exists seg, trace w' = trace w ++ seg /\
              within 0 0 (2 * n) 0 (2 * schedule 0 n) seg.
Proof.
  unfold generateWithRetries. rewrite GenerationFacts.models_loop_step.
  destruct (attempt_loop env n 0 primary prompt None w) as [w1 out1] eqn:H1.
  apply attempt_loop_account in H1 as (Hs1 & Hc1 & seg1 & Htr1 & Hw1).
  pose proof (schedule_nonneg 0 n) as Hnn.
  destruct out1 as [[t|l1]|e].
  - intros [= <- <-]. split; [done|]. split; [done|]. exists seg1. split; [done|].
    eapply within_weaken; [exact Hw1 | lia..].
  - rewrite GenerationFacts.models_loop_step.
    destruct (attempt_loop env n 0 (GEMINI_FALLBACK_MODEL env) prompt l1 w1)
      as [w2 out2] eqn:H2.
    apply attempt_loop_account in H2 as (Hs2 & Hc2 & seg2 & Htr2 & Hw2).
    intros Hrun.
    assert (w' = w2) as ->.
    { destruct out2 as [[?|?]|?]; cbn [models_loop] in Hrun; unfold throw in Hrun;
        by injection Hrun as <- _. }
    split; [congruence|]. split; [congruence|].
    exists (seg1 ++ seg2). split; [by rewrite Htr2, Htr1, <- app_assoc|].
    eapply within_weaken; [exact (within_app _ _ _ _ _ _ _ _ _ _ _ _ Hw1 Hw2) | lia..].
  - intros [= <- <-]. split; [done|]. split; [done|]. exists seg1. split; [done|].
    eapply within_weaken; [exact Hw1 | lia..].
Qed.

End WithEnv.

(** X14. Whatever the generation service answers, [generateWithRetries]
    ends after at most [2 * maxAttempts] calls to it, and the waits it asks
    for add up to at most twice those of the schedule: with the default of
    4 attempts, at most 8 calls and 12 seconds of waiting. It makes no
    other call and leaves the session store and the collection alone. *)
Theorem X14_generation_is_bounded env primary prompt maxAttempts w w' out :
  generateWithRetries env primary prompt maxAttempts w = (w', out) ->
  sessions w' = sessions w /\ collection w' = collection w /\
  exists seg,
    trace w' = trace w ++ seg /\
    Forall generation_event seg /\
    (count_events is_generate seg <= 2 * maxAttempts)%nat /\
    total_wait seg <= 2 * schedule 0 maxAttempts /\
    (maxAttempts = 4%nat -> total_wait seg <= 12000).
Proof.
  intros Hrun. pose proof Hrun as Hrun'.
  apply generateWithRetries_account in Hrun as (Hs & Hc & seg & Htr & Hw).
  apply GenerationFacts.generateWithRetries_shape in Hrun'
    as (_ & _ & seg' & Htr' & Hgen & _).
  assert (seg' = seg) as -> by (rewrite Htr in Htr'; by apply app_inv_head in Htr').
  destruct Hw as (_ & _ & Hg & _ & Hms & _).
  split; [done|]. split; [done|]. exists seg. repeat split; try done.
  intros ->. exact Hms.
Qed.

Lemma X14_generation_is_bounded_witness :
  let run := generateWithRetries Examples.busy_env "gemini-1.5-flash" "q" 4
               Examples.empty_world in
  exists seg, trace (fst run) = [] ++ seg /\
              (count_events is_generate seg <= 8)%nat /\ total_wait seg <= 12000.
Proof.
  intros run.
  destruct (X14_generation_is_bounded Examples.busy_env "gemini-1.5-flash" "q" 4%nat
              Examples.empty_world (fst run) (snd run) (surjective_pairing run))
    as (_ & _ & seg & Htr & _ & Hg & _ & Hms).
  exists seg. split; [exact Htr|]. split; [exact Hg | exact (Hms eq_refl)].
Defined.

Lemma other_sessions_kept_refl key w w' :
  sessions w' = sessions w -> other_sessions_kept key w w'.
Proof. intros H k _. by rewrite H. Qed.

Lemma other_sessions_kept_trans key w w1 w2 :
  other_sessions_kept key w w1 -> other_sessions_kept key w1 w2 ->
  other_sessions_kept key w w2.
Proof. intros H1 H2 k Hk. by rewrite (H2 k Hk), (H1 k Hk). Qed.

Lemma pushHistory_account env sid r c w w' out :
  pushHistory env sid r c w = (w', out) ->
  collection w' = collection w /\
  other_sessions_kept (session_key sid) w w' /\
  exists seg, trace w' = trace w ++ seg /\ within 0 0 0 2 0 seg.
Proof.
  rewrite ChatFacts.pushHistory_run. cbv zeta.
  destruct (redis_fault env (time w)).
  { intros [= <- <-]. split; [done|]. split; [by apply other_sessions_kept_refl|].
    eexists. split; [reflexivity|].
    unfold within, count_events. simpl. repeat split; try lia. by repeat constructor. }
  destruct (redis_fault env (S (time w))); intros [= <- <-]; (split; [done|]); split.
  - by apply other_sessions_kept_refl.
  - eexists. split; [cbn [trace log_event]; by rewrite <- app_assoc|].
    unfold within, count_events. simpl. repeat split; try lia. by repeat constructor.
  - intros k Hk. simpl. by rewrite lookup_insert_ne.
  - eexists. split; [cbn [trace log_event set_session]; by rewrite <- app_assoc|].
    unfold within, count_events. simpl. repeat split; try lia. by repeat constructor.
Qed.

Lemma retrieve_account env q k w w' out :
  retrieve env q k w = (w', out) ->
  sessions w' = sessions w /\ collection w' = collection w /\
  exists seg, trace w' = trace w ++ seg /\ within 1 1 0 0 0 seg.
Proof.
  rewrite ChatFacts.retrieve_run. cbv zeta.
  destruct (embedding_result _).
  - destruct (qdrant_search _ _ _ _); intros [= <- <-]; (split; [done|]); (split; [done|]);
      eexists; (split; [cbn [trace log_event]; by rewrite <- app_assoc|]);
      unfold within, count_events; simpl; repeat split; try lia; by repeat constructor.
  - intros [= <- <-]. split; [done|]. split; [done|]. eexists. split; [reflexivity|].
    unfold within, count_events. simpl. repeat split; try lia. by repeat constructor.
Qed.

Lemma chat_try_account env req w w' out :
  chat_try env req w = (w', out) ->
  collection w' = collection w /\
  other_sessions_kept (session_key (req_sessionId req)) w w' /\
  exists seg, trace w' = trace w ++ seg /\ within 1 1 8 4 12000 seg.
Proof.
  destruct (accepted (req_message req)) eqn:Hacc.
  2:{ rewrite (ChatFacts.chat_try_rejected env req w Hacc). intros [= <- <-].
      split; [done|]. split; [by apply other_sessions_kept_refl|].
      exists []. rewrite app_nil_r. split; [done|].
      eapply within_weaken; [apply within_nil | lia..]. }
  destruct (req_message req) as [|message|[]] eqn:Hm; try discriminate.
  2:{ unfold chat_try. rewrite Hm. unfold throw. intros [= <- <-].
      split; [done|]. split; [by apply other_sessions_kept_refl|].
      exists []. rewrite app_nil_r. split; [done|].
      eapply within_weaken; [apply within_nil | lia..]. }
  apply negb_true_iff in Hacc.
  rewrite (ChatFacts.chat_try_run env req message w Hm Hacc). cbv zeta.
  destruct (pushHistory env _ "user" message w) as [w1 out1] eqn:Hp1.
  apply pushHistory_account in Hp1 as (Hc1 & Ho1 & seg1 & Htr1 & Hw1).
  destruct out1 as [[]|e].
  2:{ intros [= <- <-]. split; [done|]. split; [done|]. exists seg1. split; [done|].
      eapply within_weaken; [exact Hw1 | lia..]. }
  destruct (retrieve env message 5 w1) as [w2 out2] eqn:Hr.
  apply retrieve_account in Hr as (Hs2 & Hc2 & seg2 & Htr2 & Hw2).
  pose proof (within_app _ _ _ _ _ _ _ _ _ _ _ _ Hw1 Hw2) as Hw12.
  assert (other_sessions_kept (session_key (req_sessionId req)) w w2) as Ho2
    by (eapply other_sessions_kept_trans; [exact Ho1 | by apply other_sessions_kept_refl]).
  destruct out2 as [[|d ds]|e].
  - destruct (pushHistory env _ "assistant" info_text w2) as [w3 out3] eqn:Hp3.
    apply pushHistory_account in Hp3 as (Hc3 & Ho3 & seg3 & Htr3 & Hw3).
    intros Hrun.
    assert (w' = w3) as -> by (destruct out3 as [[]|?]; by injection Hrun as <- _).
    split; [congruence|]. split; [by eapply other_sessions_kept_trans|].
    exists ((seg1 ++ seg2) ++ seg3).
    split; [rewrite Htr3, Htr2, Htr1; by rewrite <- !app_assoc|].
    eapply within_weaken; [exact (within_app _ _ _ _ _ _ _ _ _ _ _ _ Hw12 Hw3) | lia..].
  - destruct (generateWithRetries env _ _ 4 w2) as [w3 out3] eqn:Hg.
    apply generateWithRetries_account in Hg as (Hs3 & Hc3 & seg3 & Htr3 & Hw3).
    pose proof (within_app _ _ _ _ _ _ _ _ _ _ _ _ Hw12 Hw3) as Hw123.
    assert (other_sessions_kept (session_key (req_sessionId req)) w w3) as Ho3
      by (eapply other_sessions_kept_trans; [exact Ho2 | by apply other_sessions_kept_refl]).
    change (2 * schedule 0 4) with 12000 in Hw123.
    destruct out3 as [reply|e].
    2:{ intros [= <- <-]. split; [congruence|]. split; [done|].
        exists ((seg1 ++ seg2) ++ seg3).
        split; [rewrite Htr3, Htr2, Htr1; by rewrite <- !app_assoc|].
        eapply within_weaken; [exact Hw123 | lia..]. }
    destruct (pushHistory env _ "assistant" reply w3) as [w4 out4] eqn:Hp4.
    apply pushHistory_account in Hp4 as (Hc4 & Ho4 & seg4 & Htr4 & Hw4).
    intros Hrun.
    assert (w' = w4) as -> by (destruct out4 as [[]|?]; by injection Hrun as <- _).
    split; [congruence|]. split; [by eapply other_sessions_kept_trans|].
    exists (((seg1 ++ seg2) ++ seg3) ++ seg4).
    split; [rewrite Htr4, Htr3, Htr2, Htr1; by rewrite <- !app_assoc|].
    eapply within_weaken; [exact (within_app _ _ _ _ _ _ _ _ _ _ _ _ Hw123 Hw4) | lia..].
  - intros [= <- <-]. split; [congruence|]. split; [done|].
    exists (seg1 ++ seg2). split; [rewrite Htr2, Htr1; by rewrite <- !app_assoc|].
    eapply within_weaken; [exact Hw12 | lia..].
Qed.

Lemma chat_account env req w w' out :
  chat env req w = (w', out) ->
  collection w' = collection w /\
  other_sessions_kept (session_key (req_sessionId req)) w w' /\
  exists seg, trace w' = trace w ++ seg /\ within 1 1 8 4 12000 seg.
Proof.
  rewrite ChatFacts.chat_run.
  destruct (chat_try env req w) as [w1 out1] eqn:Htry.
  apply chat_try_account in Htry as (Hc & Ho & seg & Htr & Hw).
  destruct out1 as [resp|e]; intros [= <- <-].
  - split; [done|]. split; [done|]. by exists seg.
  - split; [done|]. split; [by intros k Hk; apply Ho|].
    exists (seg ++ [EvLog e]). split; [cbn [trace log_event]; by rewrite Htr, <- app_assoc|].
    assert (within 0 0 0 0 0 [EvLog e]) as Hl
      by (unfold within, count_events; simpl; repeat split; try lia; by repeat constructor).
    eapply within_weaken; [exact (within_app _ _ _ _ _ _ _ _ _ _ _ _ Hw Hl) | lia..].
Qed.

(** X15. Whatever the services answer, one request to [/api/chat] makes
    at most one embedding call, one search, eight generation calls and
    four commands to the session store, and asks for at most 12 seconds of
    waiting in all. *)
Theorem X15_a_chat_request_is_bounded env req w w' out :
  chat env req w = (w', out) ->
  exists seg,
    trace w' = trace w ++ seg /\
    (count_events is_embed seg <= 1)%nat /\
    (count_events is_search seg <= 1)%nat /\
    (count_events is_generate seg <= 8)%nat /\
    (count_events is_store seg <= 4)%nat /\
    total_wait seg <= 12000.
Proof.
  intros Hrun. apply chat_account in Hrun as (_ & _ & seg & Htr & Hw).
  destruct Hw as (? & ? & ? & ? & ? & _). by exists seg.
Qed.

Lemma X15_a_chat_request_is_bounded_witness :
  let run := chat Examples.busy_env Examples.hello Examples.empty_world in
  exists seg, trace (fst run) = [] ++ seg /\
              (count_events is_generate seg <= 8)%nat /\ total_wait seg <= 12000.
Proof.
  intros run.
  destruct (X15_a_chat_request_is_bounded Examples.busy_env Examples.hello
              Examples.empty_world (fst run) (snd run) (surjective_pairing run))
    as (seg & Htr & _ & _ & Hg & _ & Hms).
  exists seg. split; [exact Htr|]. split; [exact Hg | exact Hms].
Defined.

(** X16. A request to [/api/chat] only adds to the trace of calls; it
    never writes to the vector collection (no upsert is made and the
    collection is as before) and it leaves the history of every other
    session as it was. *)
Theorem X16_a_chat_request_keeps_to_its_session env req w w' out :
  chat env req w = (w', out) ->
  collection w' = collection w /\
  (exists seg, trace w' = trace w ++ seg /\
     Forall (fun ev => match ev with EvUpsert _ => False | _ => True end) seg) /\
  (forall sid, sid <> req_sessionId req -> history_of w' sid = history_of w sid).
Proof.
  intros Hrun. apply chat_account in Hrun as (Hc & Ho & seg & Htr & Hw).
  split; [done|]. split.
  - exists seg. split; [done|]. by destruct Hw as (_ & _ & _ & _ & _ & ?).
  - intros sid Hsid. unfold history_of. rewrite Ho; [done|].
    intros Hk. by apply session_key_inj in Hk.
Qed.

Lemma X16_a_chat_request_keeps_to_its_session_witness :
  let run := chat Examples.answering_env Examples.hello Examples.empty_world in
  collection (fst run) = collection Examples.empty_world /\
  history_of (fst run) "s2" = history_of Examples.empty_world "s2".
Proof.
  intros run.
  destruct (X16_a_chat_request_keeps_to_its_session Examples.answering_env Examples.hello
              Examples.empty_world (fst run) (snd run) (surjective_pairing run))
    as (Hc & _ & Ho).
  split; [exact Hc|]. apply Ho. discriminate.
Defined.

(** X17. The handler answers 400 exactly when the message is absent,
    falsy or blank, and then it calls nothing and changes nothing. A truthy
    message that is not a string is not refused: [message.trim] is not a
    function, the [TypeError] is caught, and the client gets the friendly
    reply with status 200, nothing but the log having happened. *)
Theorem X17_status_400_exactly_for_a_missing_or_blank_message env req w :
  (snd (chat env req w) = Returned bad_request <-> accepted (req_message req) = false) /\
  (accepted (req_message req) = false -> chat env req w = (w, Returned bad_request)) /\
  (req_message req = MsgOther true ->
     chat env req w =
       (log_event (EvLog (Some (type_error "message.trim is not a function"))) w,
        Returned (friendly_response req))).
Proof.
  split; [split|split].
  - intros Hout. destruct (accepted (req_message req)) eqn:Hacc; [|done].
    pose proof (surjective_pairing (chat env req w)) as Hrun.
    apply ChatFacts.chat_paths in Hrun
      as [(Hrej & _)|[(? & ? & ? & _ & _ & Ho & _)|[(? & ? & ? & ? & ? & _ & _ & Ho & _)|
          (? & ? & ? & ? & ? & ? & _ & Ho & _)]]]; [congruence| | |];
      rewrite Ho in Hout; discriminate.
  - intros Hacc. by rewrite ChatFacts.chat_run, (ChatFacts.chat_try_rejected env req w Hacc).
  - intros Hacc. by rewrite ChatFacts.chat_run, (ChatFacts.chat_try_rejected env req w Hacc).
  - intros Hm. rewrite ChatFacts.chat_run. unfold chat_try. by rewrite Hm.
Qed.

Lemma last_failure_app d seg1 seg2 :
  last_failure d (seg1 ++ seg2) = last_failure (last_failure d seg1) seg2.
Proof. apply fold_left_app. Qed.

Lemma attempt_loop_last env remaining a m p lastErr w w' l :
  attempt_loop env remaining a m p lastErr w = (w', Returned (inr l)) ->
  exists seg, trace w' = trace w ++ seg /\ l = last_failure lastErr seg /\
    (remaining = 0%nat -> seg = []) /\
    ((0 < remaining)%nat ->
       exists err, l = Some err /\ In (EvGenerate m p (GenError err)) seg).
Proof.
  revert a lastErr w. induction remaining as [|n IH]; intros a lastErr w Hrun.
  - injection Hrun as <- <-. exists []. rewrite app_nil_r.
    repeat split; try done. lia.
  - rewrite GenerationFacts.attempt_loop_step in Hrun. cbv zeta in Hrun.
    destruct (generateContent env (time w) m p) as [t|err]; [discriminate|].
    destruct (retriable err).
    + apply IH in Hrun as (seg & Htr & Hl & Hzero & Hpos).
      exists (EvGenerate m p (GenError err) :: EvSleep (wait_for a) :: seg).
      split; [rewrite Htr; simpl; by rewrite <- !app_assoc|].
      split; [done|]. split; [done|]. intros _.
      destruct n as [|n].
      * rewrite (Hzero eq_refl) in *. exists err. split; [done | by left].
      * destruct Hpos as (err' & Hl' & Hin); [lia|].
        exists err'. split; [done|]. right. by right.
    + injection Hrun as <- <-. exists [EvGenerate m p (GenError err)].
      split; [done|]. split; [done|]. split; [done|]. intros _.
      exists err. split; [done | by left].
Qed.

(** X18. When [generateWithRetries] gives up, what it throws is the error
    of its last call, whichever model that was on and whether or not the
    error was retriable: with at least one attempt allowed this is an error
    the fallback model answered with; with none allowed no call is made and
    [undefined] is thrown. *)
Theorem X18_generation_throws_the_error_of_its_last_call
    env primary prompt maxAttempts w w' e :
  generateWithRetries env primary prompt maxAttempts w = (w', Thrown e) ->
  exists seg,
    trace w' = trace w ++ seg /\
    e = last_failure None seg /\
    (maxAttempts = 0%nat -> seg = [] /\ e = None) /\
    ((0 < maxAttempts)%nat ->
       exists err, e = Some err /\
         In (EvGenerate (GEMINI_FALLBACK_MODEL env) prompt (GenError err)) seg).
Proof.
  unfold generateWithRetries. rewrite GenerationFacts.models_loop_step.
  destruct (attempt_loop env maxAttempts 0 primary prompt None w) as [w1 out1] eqn:H1.
  pose proof (GenerationFacts.attempt_loop_shape env _ _ _ _ _ _ _ _ H1)
    as (_ & _ & ? & _ & _ & Hsh1).
  destruct out1 as [[t|l1]|e1]; [discriminate| |done].
  rewrite GenerationFacts.models_loop_step.
  destruct (attempt_loop env maxAttempts 0 (GEMINI_FALLBACK_MODEL env) prompt l1 w1)
    as [w2 out2] eqn:H2.
  pose proof (GenerationFacts.attempt_loop_shape env _ _ _ _ _ _ _ _ H2)
    as (_ & _ & ? & _ & _ & Hsh2).
  destruct out2 as [[t|l2]|e2]; [discriminate| |done].
  cbn [models_loop]. unfold throw. intros [= <- <-].
  apply attempt_loop_last in H1 as (seg1 & Htr1 & Hl1 & Hz1 & _).
  apply attempt_loop_last in H2 as (seg2 & Htr2 & Hl2 & Hz2 & Hp2).
  exists (seg1 ++ seg2). split; [by rewrite Htr2, Htr1, <- app_assoc|].
  split; [rewrite last_failure_app; congruence|]. split.
  - intros Hn. rewrite (Hz1 Hn), (Hz2 Hn) in *. split; [done|]. by subst.
  - intros Hn. destruct (Hp2 Hn) as (err & Hl & Hin). exists err.
    split; [done|]. apply in_or_app. by right.
Qed.

Lemma X18_generation_throws_the_error_of_its_last_call_witness :
  let run := generateWithRetries Examples.busy_env "gemini-1.5-flash" "q" 4
               Examples.empty_world in
  exists seg, trace (fst run) = [] ++ seg /\ Some Examples.busy = last_failure None seg.
Proof.
  intros run.
  destruct (X18_generation_throws_the_error_of_its_last_call Examples.busy_env
              "gemini-1.5-flash" "q" 4%nat Examples.empty_world (fst run)
              (Some Examples.busy) eq_refl) as (seg & Htr & Hl & _).
  exists seg. exact (conj Htr Hl).
Defined.

Lemma in_trace_app (ev : event) tr seg : In ev tr -> In ev (tr ++ seg).
Proof. intros H. apply in_or_app. by left. Qed.

(** X19. A reply that comes with sources was generated: the search of
    this request returned hits, the reply is the text a model returned for
    the prompt built from the question and these hits, and the sources sent
    to the client are these hits, one for one and in their order, labelled
    [S1], [S2], ... with the title and the url of the payload (the empty
    string when the hit has none) and the score of the hit. *)
Theorem X19_sources_are_the_hits_of_the_search env req w w' reply sources :
  chat env req w = (w', Returned (reply_response reply sources (req_sessionId req))) ->
  sources <> [] ->
  exists message t qvec hits m,
    req_message req = MsgString message /\
    qdrant_search env t qvec 5 = SearchHits hits /\
    In (EvSearch qvec 5) (trace w') /\
    In (EvGenerate m (buildRagPrompt env message (map result_of_hit hits)) (GenText reply))
       (trace w') /\
    length sources = length hits /\
    forall (k : nat) h, hits !! k = Some h ->
      sources !! k =
        Some {| source_id := "S" +:+ pretty (k + 1)%nat;
                source_title := or_empty (hit_payload h ≫= payload_title);
                source_url := or_empty (hit_payload h ≫= payload_url);
                source_score := hit_score h |}.
Proof.
  intros Hrun Hsrc. rewrite ChatFacts.chat_run in Hrun.
  destruct (chat_try env req w) as [w1 [resp|e]] eqn:Htry.
  2:{ injection Hrun as _ _ Hs. by destruct Hsrc. }
  injection Hrun as -> ->.
  destruct (accepted (req_message req)) eqn:Hacc.
  2:{ rewrite (ChatFacts.chat_try_rejected env req w Hacc) in Htry. discriminate. }
  destruct (req_message req) as [|message|[]] eqn:Hm; try discriminate.
  2:{ unfold chat_try in Htry. rewrite Hm in Htry. discriminate. }
  apply negb_true_iff in Hacc.
  rewrite (ChatFacts.chat_try_run env req message w Hm Hacc) in Htry. cbv zeta in Htry.
  destruct (pushHistory env _ "user" message w) as [w1 [[]|e]]; [|discriminate].
  rewrite ChatFacts.retrieve_run in Htry. cbv zeta in Htry.
  destruct (embedding_result _) as [vectors|e]; [|discriminate].
  set (qvec := match vectors with v :: _ => v | [] => None end) in *.
  destruct (qdrant_search env (S (time w1)) qvec 5) as [hits|e] eqn:Hsearch;
    [|discriminate].
  set (w2 := log_event (EvSearch qvec 5) (log_event (EvEmbed [message]) w1)) in *.
  assert (In (EvSearch qvec 5) (trace w2)) as Hin2
    by (apply in_or_app; right; by left).
  destruct (map result_of_hit hits) as [|d ds] eqn:Hdocs.
  { destruct (pushHistory env _ "assistant" info_text w2) as [w3 [[]|e]];
      [|discriminate].
    injection Htry as _ _ Hs. by destruct Hsrc. }
  destruct (generateWithRetries env _ _ 4 w2) as [w3 [text|e]] eqn:Hg; [|discriminate].
  apply GenerationFacts.generateWithRetries_shape in Hg
    as (_ & _ & seg3 & Htr3 & _ & pre & m & -> & _).
  destruct (pushHistory env _ "assistant" text w3) as [w4 [[]|e]] eqn:Hp4; [|discriminate].
  apply ChatFacts.pushHistory_facts in Hp4 as (_ & seg4 & Htr4 & _).
  injection Htry as -> -> <-.
  exists message, (S (time w1)), qvec, hits, m.
  change (source_of d 0 :: Js.mapi source_of 1 ds) with (Js.mapi source_of 0%nat (d :: ds)).
  rewrite <- Hdocs in Htr3 |- *.
  split; [done|]. split; [done|]. split; [|split; [|split]].
  - rewrite Htr4, Htr3. by do 2 apply in_trace_app.
  - rewrite Htr4, Htr3. apply in_trace_app. apply in_or_app. right.
    apply in_or_app. right. by left.
  - by rewrite PromptFacts.mapi_length, length_map.
  - intros k h Hk. rewrite PromptFacts.mapi_lookup, list_lookup_fmap, Hk. simpl.
    unfold source_of, result_of_hit. simpl. by rewrite Nat.add_comm.
Qed.

Lemma X19_sources_are_the_hits_of_the_search_witness :
  let run := chat Examples.answering_env Examples.hello Examples.empty_world in
  let sources := Js.mapi source_of 0%nat (map result_of_hit Examples.two_hits) in
  snd run = Returned (reply_response "answer" sources "s1") /\
  exists message (hits : list hit),
    req_message Examples.hello = MsgString message /\ length sources = length hits.
Proof.
  intros run sources.
  assert (chat Examples.answering_env Examples.hello Examples.empty_world =
          (fst run, Returned (reply_response "answer" sources "s1"))) as Hrun
    by (vm_compute; reflexivity).
  destruct (X19_sources_are_the_hits_of_the_search Examples.answering_env Examples.hello
              Examples.empty_world (fst run) "answer" sources Hrun ltac:(discriminate))
    as (message & t & qvec & hits & m & Hm & _ & _ & _ & Hlen & _).
  split; [vm_compute; reflexivity|].
  exists message, hits. exact (conj Hm Hlen).
Defined.

Lemma getHistory_run env sid w :
  getHistory env sid w =
  let w1 := log_event (EvRedisGet (session_key sid)) w in
  match redis_fault env (time w) with
  | Some e => (w1, Thrown (Some e))
  | None => (w1, Returned (history_of w sid))
  end.
Proof.
  unfold getHistory, mbind, M_bind, get_time, emit, throw. cbn.
  by destruct (redis_fault env (time w)).
Qed.

Lemma history_route_run env id w :
  history_route env id w =
  let w1 := log_event (EvRedisGet (session_key id)) w in
  match redis_fault env (time w) with
  | Some e => (log_event (EvLog (Some e)) w1, Returned (FailureBody 500 (err_message e)))
  | None => (w1, Returned (HistoryBody id (history_of w id)))
  end.
Proof.
  unfold history_route, try_catch, mbind, M_bind. rewrite getHistory_run. cbv zeta.
  by destruct (redis_fault env (time w)).
Qed.

Lemma history_of_other sid id h w :
  id <> sid -> history_of (set_session (session_key sid) h w) id = history_of w id.
Proof.
  intros Hne. unfold history_of, set_session. simpl. rewrite lookup_insert_ne; [done|].
  intros Hk. apply session_key_inj in Hk. congruence.
Qed.

(** X20. The history route reads back what [pushHistory] recorded: after
    a successful push to a session, the route answers for that session with
    the earlier history followed by the new entry, and for any other
    session with its history as it was. When the store fails it answers 500
    with the message of the error. Either way the route answers rather than
    throws, and changes neither the store nor the collection. *)
Theorem X20_history_route_reads_back_what_was_pushed env sid r c w w1 id :
  pushHistory env sid r c w = (w1, Returned tt) ->
  exists w2 resp t,
    history_route env id w1 = (w2, Returned resp) /\
    sessions w2 = sessions w1 /\ collection w2 = collection w1 /\
    match redis_fault env (time w1) with
    | None =>
        resp = HistoryBody id
                 (if decide (id = sid)
                  then history_of w sid ++ [{| role := r; content := c; ts := t |}]
                  else history_of w id)
    | Some e => resp = FailureBody 500 (err_message e)
    end.
Proof.
  rewrite ChatFacts.pushHistory_run. cbv zeta.
  destruct (redis_fault env (time w)); [discriminate|].
  destruct (redis_fault env (S (time w))); [discriminate|]. intros [= <-].
  rewrite history_route_run. cbv zeta.
  set (h := history_of w sid ++ _).
  set (w1 := set_session _ _ _).
  destruct (redis_fault env (time w1)) as [e|].
  - by exists (log_event (EvLog (Some e)) (log_event (EvRedisGet (session_key id)) w1)),
      (FailureBody 500 (err_message e)), 0.
  - eexists _, _, (date_now env (S (time w))). split; [reflexivity|].
    split; [done|]. split; [done|]. f_equal. subst w1.
    destruct (decide (id = sid)) as [->|Hne].
    + by rewrite ChatFacts.history_of_set_session.
    + by rewrite history_of_other.
Qed.

Lemma X20_history_route_reads_back_what_was_pushed_witness :
  let w1 := fst (pushHistory Examples.quiet_env "s1" "user" "hi" Examples.empty_world) in
  exists w2 t,
    history_route Examples.quiet_env "s1" w1 =
      (w2, Returned (HistoryBody "s1" ([] ++ [{| role := "user"; content := "hi"; ts := t |}]))).
Proof.
  intros w1.
  destruct (X20_history_route_reads_back_what_was_pushed Examples.quiet_env "s1" "user" "hi"
              Examples.empty_world w1 "s1" eq_refl) as (w2 & resp & t & Hrun & _ & _ & Hresp).
  exists w2, t. rewrite Hrun. exact (f_equal (fun x => (w2, Returned x)) Hresp).
Defined.

Lemma chat_appends env req w w' out :
  chat env req w = (w', out) ->
  exists added,
    history_of w' (req_sessionId req) = history_of w (req_sessionId req) ++ added /\
    (added = [] \/
     exists message t, req_message req = MsgString message /\
       (added = [user_entry message t] \/
        exists reply t2 sources,
          added = [user_entry message t; assistant_entry reply t2] /\
          out = Returned (reply_response reply sources (req_sessionId req)) /\
          chat_try env req w = (w', out))).
Proof.
  intros Hrun. apply ChatFacts.chat_paths in Hrun
    as [(_ & -> & _)|[(? & ? & ? & _ & _ & _ & _ & _ & Hh)|
        [(? & ? & message & t & ? & _ & _ & _ & Hm & _ & _ & Hh)|
         (message & t & ? & reply & sources & t2 & Htry & Ho & Hm & _ & _ & Hh)]]].
  - exists []. rewrite app_nil_r. by split; [|left].
  - exists []. rewrite app_nil_r. by split; [|left].
  - exists [user_entry message t]. split; [done|]. right. exists message, t.
    split; [done | by left].
  - exists [user_entry message t; assistant_entry reply t2]. split; [done|].
    right. exists message, t. split; [done|]. right. exists reply, t2, sources.
    split; [done|]. split; [done|]. by rewrite Ho.
Qed.

(** X21. [DELETE /api/session/:id] forgets one session and nothing else:
    once it has answered [ok], the history of that session is empty, the
    histories of the other sessions and the collection are as they were,
    and the next chat request of the session starts its history anew, with
    at most the question and its answer. When the store fails the route
    answers 500 with the message of the error, and the store is as it
    was. *)
Theorem X21_delete_forgets_one_session env id w w' resp :
  delete_route env id w = (w', resp) ->
  collection w' = collection w /\
  (forall sid, sid <> id -> history_of w' sid = history_of w sid) /\
  match resp with
  | OkBody =>
      history_of w' id = [] /\
      forall req w2 out, req_sessionId req = id -> chat env req w' = (w2, out) ->
        (length (history_of w2 id) <= 2)%nat /\
        Forall (fun e => req_message req = MsgString (content e) \/
                         exists sources,
                           out = Returned (reply_response (content e) sources id))
               (history_of w2 id)
  | FailureBody st msg =>
      st = 500 /\ sessions w' = sessions w /\
      exists e, redis_fault env (time w) = Some e /\ msg = err_message e
  | HistoryBody _ _ => False
  end.
Proof.
  unfold delete_route. destruct (redis_fault env (time w)) as [e|]; intros [= <- <-].
  { split; [done|]. split; [done|]. split; [done|]. split; [done|]. by exists e. }
  assert (history_of (del_session (session_key id) w) id = []) as Hgone
    by (unfold history_of, del_session; simpl; by rewrite lookup_delete_eq).
  split; [done|]. split.
  - intros sid Hne. unfold history_of, del_session. simpl.
    rewrite lookup_delete_ne; [done|]. intros Hk. apply session_key_inj in Hk. congruence.
  - split; [done|]. intros req w2 out <- Hrun.
    apply chat_appends in Hrun as (added & Hh & Hadded).
    rewrite Hh, Hgone. cbn [app].
    destruct Hadded as [->|(message & t & Hm & [->|(reply & t2 & sources & -> & -> & _)])].
    + split; [simpl; lia | constructor].
    + split; [simpl; lia|]. constructor; [by left | constructor].
    + split; [simpl; lia|]. constructor; [by left|].
      constructor; [right; by exists sources | constructor].
Qed.

Lemma X21_delete_forgets_one_session_witness :
  let w := fst (chat Examples.answering_env Examples.hello Examples.empty_world) in
  let w' := fst (delete_route Examples.answering_env "s1" w) in
  length (history_of w "s1") = 2%nat /\ history_of w' "s1" = [] /\
  collection w' = collection w.
Proof.
  intros w w'.
  destruct (X21_delete_forgets_one_session Examples.answering_env "s1" w w' OkBody eq_refl)
    as (Hc & _ & Hgone & _).
  split; [vm_compute; reflexivity|]. exact (conj Hgone Hc).
Defined.

(** X22. A request to [/api/chat] only ever appends to the history of its
    session, at most two entries: a user entry, holding the message of the
    request, and after it possibly an assistant entry, which is recorded
    only with the reply that is sent to the client. The friendly reply of
    the error path is therefore never recorded as such. *)
Theorem X22_chat_appends_at_most_a_question_and_its_answer env req w w' out :
  chat env req w = (w', out) ->
  exists added,
    history_of w' (req_sessionId req) = history_of w (req_sessionId req) ++ added /\
    (length added <= 2)%nat /\
    map role added = take (length added) ["user"; "assistant"] /\
    (forall e, In e added -> role e = "user" -> req_message req = MsgString (content e)) /\
    (forall e, In e added -> role e = "assistant" ->
       exists sources,
         out = Returned (reply_response (content e) sources (req_sessionId req))) /\
    (forall w1 err, chat_try env req w = (w1, Thrown err) ->
       Forall (fun e => role e = "user") added).
Proof.
  intros Hrun. apply chat_appends in Hrun as (added & Hh & Hadded).
  exists added. split; [done|].
  destruct Hadded as [->|(message & t & Hm & [->|(reply & t2 & sources & -> & -> & Hret)])].
  - split; [simpl; lia|]. split; [done|]. split; [by intros ? []|].
    split; [by intros ? [] | by constructor].
  - split; [simpl; lia|]. split; [done|].
    split; [by intros ? [<-|[]] _|]. split; [by intros ? [<-|[]]|].
    intros _ _ _. by repeat constructor.
  - split; [simpl; lia|]. split; [done|].
    split; [by intros ? [<-|[<-|[]]]|].
    split; [intros ? [<-|[<-|[]]]; [done|]; intros _; by exists sources|].
    intros w1 err Htry. rewrite Htry in Hret. discriminate.
Qed.

Lemma X22_chat_appends_at_most_a_question_and_its_answer_witness :
  let run := chat Examples.answering_env Examples.hello Examples.empty_world in
  exists added, history_of (fst run) "s1" = [] ++ added /\ (length added <= 2)%nat.
Proof.
  intros run.
  destruct (X22_chat_appends_at_most_a_question_and_its_answer Examples.answering_env
              Examples.hello Examples.empty_world (fst run) (snd run)
              (surjective_pairing run)) as (added & Hh & Hlen & _).
  exists added. exact (conj Hh Hlen).
Defined.

End ServerExtras.
